(** * ResultDisplay: segmentation of a Markdown document into prose and table
    parts, and the editing session built on it.

    The development embeds [src/components/ResultDisplay.tsx]:
    - the regular expression literal [tableRegex] with the backtracking
      semantics JavaScript gives it,
    - [RegExp.prototype.exec] on a global regular expression,
    - [parseMarkdown], [handleTableUpdate] and the join of
      [handleSaveAsDocx],
    - the effect that waits for the export libraries. *)

From Stdlib Require Import String Ascii DecimalString DecimalNat.
From Stdlib Require Import List NArith Arith Bool Lia.
Import ListNotations.

Set Implicit Arguments.

(** ** JavaScript strings *)

(** A JavaScript string is a sequence of UTF-16 code units. *)
Definition code_unit := N.
Definition jsstring := list code_unit.

(** The code units of an ASCII literal. *)
Definition units (s : string) : jsstring :=
  map N_of_ascii (list_ascii_of_string s).

Definition LF : code_unit := 10%N.
Definition CR : code_unit := 13%N.
Definition PIPE : code_unit := 124%N.
Definition HYPHEN : code_unit := 45%N.

(** [String.prototype.substring] with [0 <= a] (indices are clamped to the
    length, and swapped when [b < a]). *)
Definition substring (s : jsstring) (a b : nat) : jsstring :=
  let a' := Nat.min a (length s) in
  let b' := Nat.min b (length s) in
  firstn (Nat.max a' b' - Nat.min a' b') (skipn (Nat.min a' b') s).

(** [Array.prototype.join]. *)
Fixpoint join (sep : jsstring) (l : list jsstring) : jsstring :=
  match l with
  | [] => []
  | [x] => x
  | x :: l' => x ++ sep ++ join sep l'
  end.

(** ** Regular expressions, as the pattern grammar of ECMAScript has them *)

Module Regex.

Inductive regex : Type :=
| Chr (c : code_unit)         (* a pattern character *)
| Dot                         (* [.] without the [s] flag *)
| Seq (a b : regex)           (* ab *)
| Alt (a b : regex)           (* a|b *)
| Star (a : regex)            (* a*, greedy *)
| Opt (a : regex).            (* a?, greedy *)

(** [a+] is RepeatMatcher with min 1: one mandatory iteration, then [a*]. *)
Definition Plus (a : regex) : regex := Seq a (Star a).

(** LineTerminator: the code units [.] refuses. *)
Definition line_terminator (c : code_unit) : bool :=
  (c =? 10)%N || (c =? 13)%N || (c =? 8232)%N || (c =? 8233)%N.

(** A matcher state is the suffix of the input that is still to be read;
    a continuation takes the state reached and returns the result of the
    whole match, or fails. Capture groups are not recorded: the pattern
    has no back-reference and the callers read only the index and the end
    of a match. *)
Section Matcher.

Variable A : Type.

Definition cont := jsstring -> option A.

(** The matcher of a pattern. [Star] is RepeatMatcher with min 0 and no
    max: an iteration that consumes nothing is refused, so each iteration
    consumes at least one code unit and [length x] iterations are all that
    can happen from [x]. *)
Fixpoint m (r : regex) (x : jsstring) (c : cont) {struct r} : option A :=
  match r with
  | Chr ch =>
      match x with
      | ch' :: y => if (ch =? ch')%N then c y else None
      | [] => None
      end
  | Dot =>
      match x with
      | ch' :: y => if line_terminator ch' then None else c y
      | [] => None
      end
  | Seq a b => m a x (fun y => m b y c)
  | Alt a b =>
      match m a x c with
      | Some z => Some z
      | None => m b x c
      end
  | Star a =>
      (fix repeat_matcher (fuel : nat) (x : jsstring) {struct fuel} : option A :=
         match fuel with
         | O => c x
         | S fuel' =>
             match m a x (fun y => if length y =? length x then None
                                   else repeat_matcher fuel' y) with
             | Some z => Some z
             | None => c x
             end
         end) (length x) x
  | Opt a =>
      match m a x (fun y => if length y =? length x then None else c y) with
      | Some z => Some z
      | None => c x
      end
  end.

(** The repetition inside [Star], by name. *)
Definition repeat_matcher (a : regex) (c : cont) : nat -> jsstring -> option A :=
  fix repeat_matcher (fuel : nat) (x : jsstring) {struct fuel} : option A :=
    match fuel with
    | O => c x
    | S fuel' =>
        match m a x (fun y => if length y =? length x then None
                              else repeat_matcher fuel' y) with
        | Some z => Some z
        | None => c x
        end
    end.

End Matcher.

(** The words of a regular expression. *)
Inductive matches : regex -> jsstring -> Prop :=
| MChr ch : matches (Chr ch) [ch]
| MDot ch : line_terminator ch = false -> matches Dot [ch]
| MSeq a b u v : matches a u -> matches b v -> matches (Seq a b) (u ++ v)
| MAltL a b u : matches a u -> matches (Alt a b) u
| MAltR a b u : matches b u -> matches (Alt a b) u
| MStar0 a : matches (Star a) []
| MStarS a u v : matches a u -> matches (Star a) v -> matches (Star a) (u ++ v)
| MOpt0 a : matches (Opt a) []
| MOpt1 a u : matches a u -> matches (Opt a) u.

(** Two continuations agree through [k]: [c2] fails where [c1] does, and
    succeeds with [k]'s answer where [k] accepts the answer of [c1]. *)
Definition agree {A B : Type} (k : A -> option B) (c1 : cont A) (c2 : cont B)
  : Prop :=
  forall y,
    (c1 y = None -> c2 y = None) /\
    (forall z b, c1 y = Some z -> k z = Some b -> c2 y = Some b).

(** What the words of a pattern can look like around line feeds: whether
    the empty word is one of them, whether one can begin or end with a
    line feed, and whether one can hold two line feeds in a row. *)
Fixpoint nullable (r : regex) : bool :=
  match r with
  | Chr _ | Dot => false
  | Seq a b => nullable a && nullable b
  | Alt a b => nullable a || nullable b
  | Star _ | Opt _ => true
  end.

Fixpoint first_lf (r : regex) : bool :=
  match r with
  | Chr ch => (ch =? 10)%N
  | Dot => false
  | Seq a b => first_lf a || (nullable a && first_lf b)
  | Alt a b => first_lf a || first_lf b
  | Star a | Opt a => first_lf a
  end.

Fixpoint last_lf (r : regex) : bool :=
  match r with
  | Chr ch => (ch =? 10)%N
  | Dot => false
  | Seq a b => last_lf b || (nullable b && last_lf a)
  | Alt a b => last_lf a || last_lf b
  | Star a | Opt a => last_lf a
  end.

Fixpoint double_lf (r : regex) : bool :=
  match r with
  | Chr _ | Dot => false
  | Seq a b => double_lf a || double_lf b || (last_lf a && first_lf b)
  | Alt a b => double_lf a || double_lf b
  | Star a => double_lf a || (last_lf a && first_lf a)
  | Opt a => double_lf a
  end.

End Regex.
Import Regex.

(** ** The source *)

(** [tableRegex] is a global regular expression made, inside one capture
    group, of these pieces in sequence:
    [\|.*\|], [(?:\r?\n|\r)?], [\|(?:-+\|)+], [(\r?\n|\r)?] and the group
    [(?:\|.*\|(?:\r?\n|\r)?)] under a star. *)

(** [\r?\n|\r] *)
Definition newline : regex := Alt (Seq (Opt (Chr CR)) (Chr LF)) (Chr CR).

(** [\|.*\|] *)
Definition row : regex := Seq (Chr PIPE) (Seq (Star Dot) (Chr PIPE)).

(** [\|(?:-+\|)+] *)
Definition delimiter : regex :=
  Seq (Chr PIPE) (Plus (Seq (Plus (Chr HYPHEN)) (Chr PIPE))).

(** [(\r?\n|\r)?] followed by the starred group of rows *)
Definition body : regex := Seq (Opt newline) (Star (Seq row (Opt newline))).

Definition tableRegex : regex :=
  Seq row (Seq (Opt newline) (Seq delimiter body)).

(** One attempt to match [tableRegex] at the head of [x]: the state after
    the match. *)
Definition table_at (x : jsstring) : option jsstring :=
  m tableRegex x (fun y => Some y).

(** [RegExp.prototype.exec] of a global regular expression on [S] with
    the given [lastIndex]: the match is tried at [lastIndex], then at each
    later index up to the length of [S]. The result is [match.index] and
    the new [lastIndex], the end of the match; [match[0]] is the text
    between them. *)
Fixpoint scan (r : regex) (rest : jsstring) (i : nat) : option (nat * nat) :=
  match m r rest (fun y => Some y) with
  | Some y => Some (i, i + (length rest - length y))
  | None =>
      match rest with
      | [] => None
      | _ :: rest' => scan r rest' (S i)
      end
  end.

Definition exec (r : regex) (S : jsstring) (lastIndex : nat)
  : option (nat * nat) :=
  if length S <? lastIndex then None else scan r (skipn lastIndex S) lastIndex.

Inductive part_type : Type := markdown | table.

Record DocumentPart : Type := mkPart {
  id : jsstring;
  type : part_type;
  content : jsstring
}.

(** The decimal digits of an index, as a template literal prints it. *)
Definition decimal (n : nat) : jsstring :=
  units (NilEmpty.string_of_uint (Nat.to_uint n)).

Definition md_id (lastIndex : nat) : jsstring := units "md-" ++ decimal lastIndex.
Definition tbl_id (index : nat) : jsstring := units "tbl-" ++ decimal index.

(** The [while] loop of [parseMarkdown] and the [if] after it. One unit of
    fuel is one evaluation of the loop condition; the loop of the source
    does not end if the fuel does. *)
Fixpoint parse_loop (fuel : nat) (md : jsstring) (lastIndex : nat)
    (parts : list DocumentPart) : option (list DocumentPart) :=
  match fuel with
  | O => None
  | S fuel' =>
      match exec tableRegex md lastIndex with
      | Some (index, lastIndex') =>
          let parts1 :=
            if lastIndex <? index
            then parts ++ [mkPart (md_id lastIndex) markdown
                             (substring md lastIndex index)]
            else parts in
          let parts2 :=
            parts1 ++ [mkPart (tbl_id index) table
                         (substring md index lastIndex')] in
          parse_loop fuel' md lastIndex' parts2
      | None =>
          Some (if lastIndex <? length md
                then parts ++ [mkPart (md_id lastIndex) markdown
                                 (substring md lastIndex (length md))]
                else parts)
      end
  end.

Definition parseMarkdown (md : jsstring) : option (list DocumentPart) :=
  parse_loop (S (length md)) md 0 [].

(** [handleTableUpdate]: the updater passed to [setDocumentParts]. *)
Definition handleTableUpdate (tableId updatedMarkdown : jsstring)
    (currentParts : list DocumentPart) : list DocumentPart :=
  map (fun part =>
         if list_eq_dec N.eq_dec (id part) tableId
         then mkPart (id part) (type part) updatedMarkdown
         else part) currentParts.

(** [documentParts.map(p => p.content).join('\n\n')] of [handleSaveAsDocx]. *)
Definition combinedMarkdown (documentParts : list DocumentPart) : jsstring :=
  join [LF; LF] (map content documentParts).

(** ** The session *)

(** The effect on [markdownContent]: the parts are those of
    [parseMarkdown], and none when the content is empty. *)
Definition load (markdownContent : jsstring) : option (list DocumentPart) :=
  match markdownContent with
  | [] => Some []
  | _ :: _ => parseMarkdown markdownContent
  end.

(** The values the state [documentParts] can hold: the empty array it
    starts with, what the effect sets, and what [handleTableUpdate] makes
    of a value it holds. *)
Inductive held : list DocumentPart -> Prop :=
| held_initial : held []
| held_load markdownContent parts :
    load markdownContent = Some parts -> held parts
| held_update parts tableId updatedMarkdown :
    held parts -> held (handleTableUpdate tableId updatedMarkdown parts).

(** ** The segmentation, as a relation *)

(** The id of a part of kind [k] that begins at index [o]. *)
Definition part_id (k : part_type) (o : nat) : jsstring :=
  match k with
  | markdown => md_id o
  | table => tbl_id o
  end.

(** What the source pushes for the text between two matches, or after the
    last one: nothing when there is none. *)
Definition prose_part (o : nat) (gap : jsstring) : list DocumentPart :=
  match gap with
  | [] => []
  | _ :: _ => [mkPart (md_id o) markdown gap]
  end.

(** No match begins inside [pre] when [ctx] follows it. *)
Definition unmatched (pre ctx : jsstring) : Prop :=
  forall a b, pre = a ++ b -> b <> [] -> table_at (b ++ ctx) = None.

(** [segmented o x parts]: scanning [x], which begins at index [o] of the
    document, leaves [parts]. *)
Inductive segmented : nat -> jsstring -> list DocumentPart -> Prop :=
| seg_last o x :
    unmatched x [] ->
    segmented o x (prose_part o x)
| seg_match o pre t rest l :
    unmatched pre (t ++ rest) ->
    table_at (t ++ rest) = Some rest ->
    segmented (o + length pre + length t) rest l ->
    segmented o (pre ++ t ++ rest)
      (prose_part o pre ++ mkPart (tbl_id (o + length pre)) table t :: l).

(** A text begins with a word of the pattern. *)
Definition begins (r : regex) (x : jsstring) : Prop :=
  exists w tl, x = w ++ tl /\ matches r w.


(** ** Table regions written line by line *)

(** No line terminator among the code units of [h]. *)
Definition plain (h : jsstring) : bool :=
  forallb (fun ch => negb (line_terminator ch)) h.

(** A row: a pipe, cells, a pipe. *)
Definition cell_row (h : jsstring) : jsstring := PIPE :: h ++ [PIPE].

(** A run of [S k] hyphens closed by a pipe. *)
Definition hyphen_group (k : nat) : jsstring := repeat HYPHEN (S k) ++ [PIPE].

(** A delimiter row: a pipe, then the groups of hyphens. *)
Definition delimiter_row (ks : list nat) : jsstring :=
  PIPE :: concat (map hyphen_group ks).

(** A table region of whole lines: a header row, a delimiter row and
    further rows, each on a line of its own. *)
Inductive table_region : jsstring -> Prop :=
| table_region_lines header ks rows :
    plain header = true -> ks <> [] -> forallb plain rows = true ->
    table_region
      (cell_row header ++ LF :: delimiter_row ks ++
       concat (map (fun h => LF :: cell_row h) rows)).

(** At most one newline: nothing, a line feed, a carriage return and a
    line feed, or a carriage return. *)
Definition opt_newline (n : jsstring) : Prop :=
  n = [] \/ n = [LF] \/ n = [CR; LF] \/ n = [CR].

(** A row with at most one newline after it. *)
Definition row_line (rn : jsstring * jsstring) : jsstring :=
  cell_row (fst rn) ++ snd rn.

(** The texts of the table pattern, spelled out: a header row, at most
    one newline, a delimiter, at most one newline, and rows, each with at
    most one newline after it. *)
Inductive table_text : jsstring -> Prop :=
| table_text_intro header n1 ks n2 rows :
    plain header = true -> opt_newline n1 -> ks <> [] -> opt_newline n2 ->
    Forall (fun rn => plain (fst rn) = true /\ opt_newline (snd rn)) rows ->
    table_text
      (cell_row header ++ n1 ++ delimiter_row ks ++ n2 ++
       concat (map row_line rows)).

(** A text begins with a row, or with a text of the table pattern. *)
Definition begins_row (x : jsstring) : Prop :=
  exists h tl, x = cell_row h ++ tl /\ plain h = true.

Definition begins_table (x : jsstring) : Prop :=
  exists w tl, x = w ++ tl /\ table_text w.

(** The header and delimiter rows of the rule as the specification words
    it: a row that holds a pipe, and a row of pipes and hyphens only. *)
Definition spec_header_row (line : jsstring) : bool :=
  existsb (fun ch => (ch =? PIPE)%N) line.

Definition spec_delimiter_row (line : jsstring) : bool :=
  forallb (fun ch => (ch =? PIPE)%N || (ch =? HYPHEN)%N) line &&
  existsb (fun ch => (ch =? HYPHEN)%N) line.

(** The texts a row or a table can end in front of: the end of the input
    or a line feed. *)
Definition line_end (tl : jsstring) : Prop := tl = [] \/ exists tl', tl = LF :: tl'.

(** What the lines after the delimiter row leave: nothing at the end of
    the input, and the second line feed of a blank line. *)
Inductive leaves : jsstring -> jsstring -> Prop :=
| leaves_end : leaves [] []
| leaves_blank X : leaves (LF :: LF :: X) (LF :: X).

(** ** Inputs of the scenarios *)

Definition scenarioA : jsstring :=
  units "Hello" ++ [LF; LF] ++ units "| a | b |" ++ [LF] ++ units "|---|---|"
  ++ [LF] ++ units "| 1 | 2 |" ++ [LF; LF] ++ units "Bye".

(** What [parseMarkdown] returns for [scenarioA]. *)
Definition scenarioA_table : jsstring :=
  units "| a | b |" ++ [LF] ++ units "|---|---|" ++ [LF] ++ units "| 1 | 2 |"
  ++ [LF].

Definition scenarioA_parts : list DocumentPart :=
  [mkPart (md_id 0) markdown (units "Hello" ++ [LF; LF]);
   mkPart (tbl_id 7) table scenarioA_table;
   mkPart (md_id 37) markdown ([LF] ++ units "Bye")].


Definition scenarioE : jsstring :=
  units "| x |" ++ [LF] ++ units "|---|" ++ [LF] ++ units "| 9 |".

Definition tableA : jsstring := units "|a|" ++ [LF] ++ units "|-|".
Definition tableB : jsstring := units "|b|" ++ [LF] ++ units "|-|".

(** ** The table the pattern prefers, and the rule of the segmentation *)

(** A text of the table pattern whose header row is [cell_row header]. *)
Inductive table_text_of (header : jsstring) : jsstring -> Prop :=
| table_text_of_intro n1 ks n2 rows :
    plain header = true -> opt_newline n1 -> ks <> [] -> opt_newline n2 ->
    Forall (fun rn => plain (fst rn) = true /\ opt_newline (snd rn)) rows ->
    table_text_of header
      (cell_row header ++ n1 ++ delimiter_row ks ++ n2 ++
       concat (map row_line rows)).

(** The greedy choice at the head of [x]: of the texts of the table
    pattern that [x] begins with, [w] has the longest header row, and is
    the longest with a header row of that length. *)
Definition preferred_table (x w : jsstring) : Prop :=
  exists header rest,
    x = w ++ rest /\ table_text_of header w /\
    forall header' w' rest',
      x = w' ++ rest' -> table_text_of header' w' ->
      length header' <= length header /\
      (length header' = length header -> length w' <= length w).

(** The rule of the segmentation of [x], a text that begins at index [o]
    of the document: the texts of the parts make up [x]; the id of a part
    tells its kind and the index it begins at; a table part is the
    preferred table where it begins; a prose part is not empty, no text of
    the table pattern begins at any of its code units, and the part after
    it, if any, is a table. *)
Definition segmentation_rule (o : nat) (x : jsstring)
    (parts : list DocumentPart) : Prop :=
  concat (map content parts) = x /\
  forall before p after, parts = before ++ p :: after ->
    id p = part_id (type p) (o + length (concat (map content before))) /\
    (type p = table ->
       preferred_table (content p ++ concat (map content after)) (content p)) /\
    (type p = markdown ->
       content p <> [] /\
       (forall a b, content p = a ++ b -> b <> [] ->
          ~ begins_table (b ++ concat (map content after))) /\
       (forall q after', after = q :: after' -> type q = table)).

(** ** Table regions as the specification words them *)

(** The lines of a text as the rule of the specification reads them: what
    stands between line breaks, a line break being a line feed, a carriage
    return, or a carriage return and a line feed. *)
Fixpoint spec_lines_from (line x : jsstring) : list jsstring :=
  match x with
  | [] => [line]
  | ch :: y =>
      if (ch =? LF)%N then line :: spec_lines_from [] y
      else if (ch =? CR)%N then
        match y with
        | ch' :: y' =>
            if (ch' =? LF)%N then line :: spec_lines_from [] y'
            else line :: spec_lines_from [] y
        | [] => line :: spec_lines_from [] y
        end
      else spec_lines_from (line ++ [ch]) y
  end.

Definition spec_lines (x : jsstring) : list jsstring := spec_lines_from [] x.



Definition tableThenLooseRow : jsstring :=
  units "|a|" ++ [LF] ++ units "|-|" ++ [LF] ++ units "1|2".

(** ** Counting pipes and hyphens *)

(** The number of pipes, and of hyphens, in a text. *)
Definition pipes (x : jsstring) : nat := @count_occ code_unit N.eq_dec x PIPE.
Definition hyphens (x : jsstring) : nat :=
  @count_occ code_unit N.eq_dec x HYPHEN.

Definition threePipes : jsstring := units "|-|-" ++ [LF] ++ units "---|".

(** ** One table written with any line break *)

(** Exactly one newline: a line feed, a carriage return and a line feed,
    or a carriage return. *)
Definition line_break (n : jsstring) : Prop :=
  n = [LF] \/ n = [CR; LF] \/ n = [CR].

(** A document that is one table written line by line, with any of the
    three line breaks after each line but the last, and at most one
    newline at its end. *)
Inductive table_document : jsstring -> Prop :=
| table_document_lines header n1 ks rows tail :
    plain header = true -> line_break n1 -> ks <> [] ->
    Forall (fun nr => line_break (fst nr) /\ plain (snd nr) = true) rows ->
    opt_newline tail ->
    table_document
      (cell_row header ++ n1 ++ delimiter_row ks ++
       concat (map (fun nr => fst nr ++ cell_row (snd nr)) rows) ++ tail).

(** The texts a row can end in front of: the end of the input or a line
    terminator. *)
Definition stops (tl : jsstring) : Prop :=
  match tl with
  | [] => True
  | ch :: _ => line_terminator ch = true
  end.

Definition tableCRLF : jsstring :=
  units "| a | b |" ++ [CR; LF] ++ units "|---|---|" ++ [CR; LF]
  ++ units "| 1 | 2 |" ++ [CR] ++ units "| 3 | 4 |" ++ [LF].

(** What follows a line break inside a table: a pipe, or nothing. *)
Definition pipe_or_end (y : jsstring) : Prop :=
  match y with
  | [] => True
  | ch :: _ => ch = PIPE
  end.

(** ** Parts kept but for line feeds *)

(** A text made of line feeds only. *)
Definition line_feeds (x : jsstring) : Prop := Forall (fun ch => ch = LF) x.

(** [p'] is [p] but for line feeds around its text: none in front of a
    table and at most one after it. *)
Definition kept (p p' : DocumentPart) : Prop :=
  type p' = type p /\
  exists a b,
    content p' = a ++ content p ++ b /\ line_feeds a /\ line_feeds b /\
    (type p = table -> a = [] /\ length b <= 1).

(** ** The effect that waits for the export libraries *)

(** What the effect reads of [window]: whether [htmlToDocx] and [saveAs]
    are there. *)
Record Window : Type := mkWindow {
  htmlToDocx : bool;
  saveAs : bool
}.

(** The state [libsReady], and whether the interval of the effect is
    running. *)
Record Polling : Type := mkPolling {
  libsReady : bool;
  intervalRunning : bool
}.

(** [checkLibs]: its result, and the state after [setLibsReady(true)]
    when the libraries are there. *)
Definition checkLibs (w : Window) (s : Polling) : bool * Polling :=
  if htmlToDocx w && saveAs w
  then (true, mkPolling true (intervalRunning s))
  else (false, s).

(** The effect, run once on mount with [libsReady] false: the interval
    is set when the first check fails. *)
Definition mountEffect (w : Window) : Polling :=
  let (found, s) := checkLibs w (mkPolling false false) in
  if negb found then mkPolling (libsReady s) true else s.

(** What happens after the mount: the interval fires and sees [window],
    or the component unmounts and the cleanup runs. *)
Inductive event : Type :=
| Tick (w : Window)
| Unmount.

Definition step (s : Polling) (e : event) : Polling :=
  match e with
  | Tick w =>
      if intervalRunning s
      then let (found, s') := checkLibs w s in
           if found then mkPolling (libsReady s') false else s'
      else s
  | Unmount => mkPolling (libsReady s) false
  end.

Definition poll (w : Window) (events : list event) : Polling :=
  fold_left step events (mountEffect w).

(** The windows the ticks before the first unmount see. *)
Fixpoint seen (events : list event) : list Window :=
  match events with
  | Tick w :: events' => w :: seen events'
  | Unmount :: _ | [] => []
  end.

Definition unmounted (events : list event) : bool :=
  existsb (fun e => match e with Unmount => true | Tick _ => false end) events.

Definition present (w : Window) : bool := htmlToDocx w && saveAs w.

(** * Facts about the matcher *)

Module RegexFacts.

Section Generic.

Context {A : Type}.
Implicit Types (c : cont A) (x y : jsstring).

Lemma m_star a x c : m (Star a) x c = repeat_matcher a c (length x) x.
Proof. reflexivity. Qed.

(** A successful match splits the input into a word of the pattern and
    the state handed to the continuation. *)
Lemma repeat_sound a c
  (IH : forall x c z, m a x c = Some z ->
        exists w y, x = w ++ y /\ matches a w /\ c y = Some z) :
  forall fuel x z, repeat_matcher a c fuel x = Some z ->
  exists w y, x = w ++ y /\ matches (Star a) w /\ c y = Some z.
Proof.
  induction fuel as [|fuel IHf]; intros x z H; simpl in H.
  - exists [], x. repeat split; [constructor | assumption].
  - destruct (m a x _) as [z'|] eqn:E.
    + inversion H; subst z'. clear H.
      apply IH in E as (w & y & -> & Mw & E).
      destruct (length y =? length (w ++ y)); [discriminate|].
      apply IHf in E as (w' & y' & -> & Mw' & E).
      exists (w ++ w'), y'. rewrite <- app_assoc.
      repeat split; [constructor; assumption | assumption].
    + exists [], x. repeat split; [constructor | assumption].
Qed.

Lemma m_sound r : forall x c z, m r x c = Some z ->
  exists w y, x = w ++ y /\ matches r w /\ c y = Some z.
Proof.
  induction r as [ch| |a IHa b IHb|a IHa b IHb|a IHa|a IHa]; intros x c z H.
  - simpl in H. destruct x as [|ch' y]; [discriminate|].
    destruct (N.eqb_spec ch ch'); [subst ch'|discriminate].
    exists [ch], y. repeat split; [constructor | assumption].
  - simpl in H. destruct x as [|ch' y]; [discriminate|].
    destruct (line_terminator ch') eqn:L; [discriminate|].
    exists [ch'], y. repeat split; [constructor; assumption | assumption].
  - simpl in H. apply IHa in H as (w1 & y1 & -> & M1 & H).
    apply IHb in H as (w2 & y2 & -> & M2 & H).
    exists (w1 ++ w2), y2. rewrite <- app_assoc.
    repeat split; [constructor; assumption | assumption].
  - simpl in H. destruct (m a x c) as [z'|] eqn:E.
    + inversion H; subst z'. apply IHa in E as (w & y & -> & M & E).
      exists w, y. repeat split; [apply MAltL; assumption | assumption].
    + apply IHb in H as (w & y & -> & M & E').
      exists w, y. repeat split; [apply MAltR; assumption | assumption].
  - rewrite m_star in H. eapply repeat_sound; eauto.
  - simpl in H. destruct (m a x _) as [z'|] eqn:E.
    + inversion H; subst z'. apply IHa in E as (w & y & -> & M & E).
      destruct (length y =? length (w ++ y)); [discriminate|].
      exists w, y. repeat split; [apply MOpt1; assumption | assumption].
    + exists [], x. repeat split; [constructor | assumption].
Qed.

(** The matcher only consults its continuation on states no longer than
    the one it starts from. *)
Lemma m_none r x c :
  (forall y, length y <= length x -> c y = None) -> m r x c = None.
Proof.
  intros H. destruct (m r x c) as [z|] eqn:E; [|reflexivity].
  apply m_sound in E as (w & y & -> & _ & E).
  rewrite H in E; [discriminate|]. rewrite length_app. lia.
Qed.

Lemma repeat_ext a
  (IH : forall x c c', (forall y, length y <= length x -> c y = c' y) ->
        m a x c = m a x c') :
  forall fuel x c c', (forall y, length y <= length x -> c y = c' y) ->
  repeat_matcher a c fuel x = repeat_matcher a c' fuel x.
Proof.
  induction fuel as [|fuel IHf]; intros x c c' H; simpl.
  - apply H. lia.
  - rewrite (IH x _ (fun y => if length y =? length x then None
                              else repeat_matcher a c' fuel y)).
    + rewrite (H x) by lia. reflexivity.
    + intros y Hy. destruct (length y =? length x); [reflexivity|].
      apply IHf. intros y' Hy'. apply H. lia.
Qed.

Lemma m_ext r : forall x c c',
  (forall y, length y <= length x -> c y = c' y) -> m r x c = m r x c'.
Proof.
  induction r as [ch| |a IHa b IHb|a IHa b IHb|a IHa|a IHa]; intros x c c' H.
  - simpl. destruct x as [|ch' y]; [reflexivity|].
    destruct (ch =? ch')%N; [|reflexivity]. apply H. simpl. lia.
  - simpl. destruct x as [|ch' y]; [reflexivity|].
    destruct (line_terminator ch'); [reflexivity|]. apply H. simpl. lia.
  - simpl. apply IHa. intros y Hy. apply IHb. intros y' Hy'. apply H. lia.
  - simpl. rewrite (IHa x c c' H), (IHb x c c' H). reflexivity.
  - rewrite !m_star. apply repeat_ext; assumption.
  - simpl. rewrite (IHa x _ (fun y => if length y =? length x then None else c' y)).
    + rewrite (H x) by lia. reflexivity.
    + intros y Hy. destruct (length y =? length x); [reflexivity|].
      apply H. assumption.
Qed.

(** The fuel of [Star] is enough: more of it changes nothing. *)
Lemma repeat_fuel a c : forall fuel fuel' x,
  length x <= fuel -> length x <= fuel' ->
  repeat_matcher a c fuel x = repeat_matcher a c fuel' x.
Proof.
  induction fuel as [|fuel IHf]; intros fuel' x H H'.
  - destruct x; [|simpl in H; lia].
    destruct fuel' as [|fuel']; [reflexivity|]. simpl.
    rewrite m_none; [reflexivity|].
    intros y Hy. simpl in Hy. replace (length y) with 0 by lia. reflexivity.
  - destruct fuel' as [|fuel'].
    + destruct x; [|simpl in H'; lia]. simpl.
      rewrite m_none; [reflexivity|].
      intros y Hy. simpl in Hy. replace (length y) with 0 by lia. reflexivity.
    + simpl.
      rewrite (m_ext a x _ (fun y => if length y =? length x then None
                                     else repeat_matcher a c fuel' y)).
      * reflexivity.
      * intros y Hy. destruct (Nat.eqb_spec (length y) (length x)); [reflexivity|].
        apply IHf; lia.
Qed.

(** The equation of [Star], free of fuel. *)
Lemma m_star_unfold a x c :
  m (Star a) x c =
  match m a x (fun y => if length y =? length x then None else m (Star a) y c) with
  | Some z => Some z
  | None => c x
  end.
Proof.
  rewrite m_star. destruct x as [|ch x'].
  - simpl. rewrite m_none; [reflexivity|].
    intros y Hy. simpl in Hy. replace (length y) with 0 by lia. reflexivity.
  - cbn [length repeat_matcher].
    rewrite (m_ext a (ch :: x') _
               (fun y => if length y =? length (ch :: x') then None
                         else m (Star a) y c)).
    + reflexivity.
    + intros y Hy. cbn [length] in *.
      destruct (Nat.eqb_spec (length y) (S (length x'))); [reflexivity|].
      rewrite m_star. apply repeat_fuel; lia.
Qed.

(** Every word of the pattern in front of a state the continuation
    accepts makes the matcher succeed. *)
Lemma m_complete r w : matches r w ->
  forall y c z, c y = Some z -> exists z', m r (w ++ y) c = Some z'.
Proof.
  induction 1 as [ch|ch L|a b u v Mu IHu Mv IHv|a b u Mu IHu|a b u Mu IHu
                 |a|a u v Mu IHu Mv IHv|a|a u Mu IHu]; intros y c z Hc.
  - simpl. rewrite N.eqb_refl. eauto.
  - simpl. rewrite L. eauto.
  - simpl. rewrite <- app_assoc.
    destruct (IHv y c z Hc) as (z1 & E1).
    apply (IHu (v ++ y) (fun y0 => m b y0 c) z1 E1).
  - simpl. destruct (IHu y c z Hc) as (z1 & E1). rewrite E1. eauto.
  - simpl. destruct (m a (u ++ y) c); [eauto|]. apply (IHu y c z Hc).
  - rewrite m_star_unfold. simpl. destruct (m a y _); eauto.
  - destruct u as [|ch u'].
    + simpl. apply (IHv y c z Hc).
    + rewrite m_star_unfold. rewrite <- app_assoc.
      destruct (IHv y c z Hc) as (z1 & E1).
      destruct (IHu (v ++ y)
                  (fun y0 => if length y0 =? length ((ch :: u') ++ v ++ y)
                             then None else m (Star a) y0 c) z1) as (z2 & E2).
      * destruct (Nat.eqb_spec (length (v ++ y)) (length ((ch :: u') ++ v ++ y)))
          as [E|_]; [|assumption].
        simpl in E. rewrite !length_app in E. lia.
      * rewrite E2. eauto.
  - simpl. destruct (m a y _); eauto.
  - simpl.
    destruct (m a (u ++ y) _) as [z1|] eqn:E; [eauto|].
    destruct u as [|ch u'].
    + simpl. eauto.
    + destruct (IHu y (fun y0 => if length y0 =? length ((ch :: u') ++ y)
                                 then None else c y0) z) as (z2 & E2).
      * destruct (Nat.eqb_spec (length y) (length ((ch :: u') ++ y))) as [E'|_];
          [|assumption].
        simpl in E'. rewrite length_app in E'. lia.
      * rewrite E2 in E. discriminate.
Qed.

End Generic.

(** ** Priority: the first state the continuation accepts wins *)

Section Priority.

Context {A B : Type}.
Variable k : A -> option B.

Local Abbreviation agree := (agree k).

Lemma repeat_agree a
  (IH : forall c1 c2, agree c1 c2 ->
        agree (fun x => m a x c1) (fun x => m a x c2)) :
  forall c1 c2, agree c1 c2 ->
  forall fuel, agree (repeat_matcher a c1 fuel) (repeat_matcher a c2 fuel).
Proof.
  intros c1 c2 H. induction fuel as [|fuel IHf]; intros x; simpl.
  - apply H.
  - assert (Hd : agree (fun y => if length y =? length x then None
                                 else repeat_matcher a c1 fuel y)
                       (fun y => if length y =? length x then None
                                 else repeat_matcher a c2 fuel y)).
    { intros y. destruct (length y =? length x).
      - split; [reflexivity | discriminate].
      - apply IHf. }
    destruct (IH _ _ Hd x) as [HN HS].
    destruct (m a x (fun y => if length y =? length x then None
                              else repeat_matcher a c1 fuel y)) as [z1|] eqn:E.
    + split; [discriminate|]. intros z b Hz Hk. inversion Hz; subst z1.
      rewrite (HS z b eq_refl Hk). reflexivity.
    + rewrite (HN eq_refl). apply H.
Qed.

Lemma m_agree r : forall c1 c2, agree c1 c2 ->
  agree (fun x => m r x c1) (fun x => m r x c2).
Proof.
  induction r as [ch| |a IHa b IHb|a IHa b IHb|a IHa|a IHa]; intros c1 c2 H x.
  - simpl. destruct x as [|ch' y]; [split; [reflexivity|discriminate]|].
    destruct (ch =? ch')%N; [apply H | split; [reflexivity|discriminate]].
  - simpl. destruct x as [|ch' y]; [split; [reflexivity|discriminate]|].
    destruct (line_terminator ch'); [split; [reflexivity|discriminate] | apply H].
  - simpl. apply (IHa _ _ (IHb _ _ H)).
  - simpl. destruct (IHa _ _ H x) as [HN HS]. destruct (IHb _ _ H x) as [HN' HS'].
    destruct (m a x c1) as [z1|] eqn:E.
    + split; [discriminate|]. intros z ans Hz Hk. inversion Hz; subst z1.
      rewrite (HS z ans eq_refl Hk). reflexivity.
    + rewrite (HN eq_refl). split; assumption.
  - rewrite !m_star. apply repeat_agree; assumption.
  - simpl.
    assert (Hd : agree (fun y => if length y =? length x then None else c1 y)
                       (fun y => if length y =? length x then None else c2 y)).
    { intros y. destruct (length y =? length x).
      - split; [reflexivity | discriminate].
      - apply H. }
    destruct (IHa _ _ Hd x) as [HN HS].
    destruct (m a x (fun y => if length y =? length x then None else c1 y))
      as [z1|] eqn:E.
    + split; [discriminate|]. intros z ans Hz Hk. inversion Hz; subst z1.
      rewrite (HS z ans eq_refl Hk). reflexivity.
    + rewrite (HN eq_refl). apply H.
Qed.

End Priority.

(** The state a total continuation would stop at is the first one tried:
    any continuation that accepts it gets its way. *)
Lemma m_first {B : Type} r x z (c : cont B) b :
  m r x (fun y => Some y) = Some z -> c z = Some b -> m r x c = Some b.
Proof.
  intros H Hc.
  assert (Hag : agree c (fun y => Some y) c).
  { intros y. split; [discriminate|]. intros z0 b0 E. inversion E; subst z0. auto. }
  apply (proj2 (m_agree r Hag x) z b H Hc).
Qed.

Lemma m_first_none {B : Type} r x (c : cont B) :
  m r x (fun y => Some y) = None -> m r x c = None.
Proof.
  intros H.
  assert (Hag : agree c (fun y => Some y) c).
  { intros y. split; [discriminate|]. intros z0 b0 E. inversion E; subst z0. auto. }
  apply (proj1 (m_agree r Hag x) H).
Qed.

(** ** Locality: what follows the states the continuations care about
    does not matter *)

Section Locality.

Context {A : Type}.

Lemma m_local r : forall v Y Y' (c c' : cont A),
  (forall v1 v2, v = v1 ++ v2 -> c (v2 ++ Y) = c' (v2 ++ Y')) ->
  (forall y, length y < length Y -> c y = None) ->
  (forall y, length y < length Y' -> c' y = None) ->
  m r (v ++ Y) c = m r (v ++ Y') c'.
Proof.
  induction r as [ch| |a IHa b IHb|a IHa b IHb|a IHa|a IHa];
    intros v Y Y' c c' H HY HY'.
  - destruct v as [|ch' v2]; simpl.
    + destruct Y as [|e y], Y' as [|e' y']; try reflexivity.
      * destruct (ch =? e')%N; [|reflexivity]. rewrite HY'; simpl; auto.
      * destruct (ch =? e)%N; [|reflexivity]. rewrite HY; simpl; auto.
      * rewrite HY, HY' by (simpl; lia).
        destruct (ch =? e)%N, (ch =? e')%N; reflexivity.
    + destruct (ch =? ch')%N; [|reflexivity]. apply (H [ch'] v2 eq_refl).
  - destruct v as [|ch' v2]; simpl.
    + destruct Y as [|e y], Y' as [|e' y']; try reflexivity.
      * destruct (line_terminator e'); [reflexivity|]. rewrite HY'; simpl; auto.
      * destruct (line_terminator e); [reflexivity|]. rewrite HY; simpl; auto.
      * rewrite HY, HY' by (simpl; lia).
        destruct (line_terminator e), (line_terminator e'); reflexivity.
    + destruct (line_terminator ch'); [reflexivity|]. apply (H [ch'] v2 eq_refl).
  - simpl. apply IHa.
    + intros v1 v2 ->. apply IHb; [|assumption|assumption].
      intros v1' v2' ->. apply (H (v1 ++ v1') v2'). rewrite app_assoc. reflexivity.
    + intros y Hy. apply m_none. intros y' Hy'. apply HY. lia.
    + intros y Hy. apply m_none. intros y' Hy'. apply HY'. lia.
  - simpl. rewrite (IHa v Y Y' c c' H HY HY'), (IHb v Y Y' c c' H HY HY').
    reflexivity.
  - remember (length v) as n eqn:Hn. revert v Hn c c' H HY HY'.
    induction n as [n IHn] using lt_wf_ind. intros v Hn c c' H HY HY'.
    rewrite (m_star_unfold a (v ++ Y)), (m_star_unfold a (v ++ Y')).
    rewrite (IHa v Y Y'
               (fun y => if length y =? length (v ++ Y) then None
                         else m (Star a) y c)
               (fun y => if length y =? length (v ++ Y') then None
                         else m (Star a) y c')).
    + rewrite (H [] v eq_refl). reflexivity.
    + intros v1 v2 ->. rewrite !length_app.
      destruct (Nat.eqb_spec (length v2 + length Y)
                             (length v1 + length v2 + length Y)) as [E|E];
      destruct (Nat.eqb_spec (length v2 + length Y')
                             (length v1 + length v2 + length Y')) as [E'|E'];
      try lia; [reflexivity|].
      apply (IHn (length v2)); [rewrite Hn, length_app; lia | reflexivity | |
                                assumption | assumption].
      intros v1' v2' ->. apply (H (v1 ++ v1') v2'). rewrite app_assoc. reflexivity.
    + intros y Hy. destruct (length y =? length (v ++ Y)); [reflexivity|].
      apply m_none. intros y' Hy'. apply HY. lia.
    + intros y Hy. destruct (length y =? length (v ++ Y')); [reflexivity|].
      apply m_none. intros y' Hy'. apply HY'. lia.
  - simpl.
    rewrite (IHa v Y Y'
               (fun y => if length y =? length (v ++ Y) then None else c y)
               (fun y => if length y =? length (v ++ Y') then None else c' y)).
    + rewrite (H [] v eq_refl). reflexivity.
    + intros v1 v2 ->. rewrite !length_app.
      destruct (Nat.eqb_spec (length v2 + length Y)
                             (length v1 + length v2 + length Y)) as [E|E];
      destruct (Nat.eqb_spec (length v2 + length Y')
                             (length v1 + length v2 + length Y')) as [E'|E'];
      try lia; [reflexivity|].
      apply (H v1 v2 eq_refl).
    + intros y Hy. destruct (length y =? length (v ++ Y)); [reflexivity|].
      apply HY. assumption.
    + intros y Hy. destruct (length y =? length (v ++ Y')); [reflexivity|].
      apply HY'. assumption.
Qed.

End Locality.

(** ** Line feeds in the words of a pattern *)

Section LineFeeds.

Lemma app_snoc_cases {X} (u v t : list X) e :
  u ++ v = t ++ [e] ->
  (v = [] /\ u = t ++ [e]) \/ (exists v', v = v' ++ [e] /\ t = u ++ v').
Proof.
  intros H. destruct v as [|e0 v0].
  - left. rewrite app_nil_r in H. auto.
  - right. destruct (@exists_last _ (e0 :: v0)) as (v' & e' & E); [discriminate|].
    rewrite E in *. rewrite app_assoc in H.
    apply app_inj_tail in H as [<- <-]. eauto.
Qed.

Lemma app_double_cases {X} (u v a b : list X) e e' :
  u ++ v = a ++ e :: e' :: b ->
  (exists l, u = a ++ e :: e' :: l) \/
  (exists l, v = l ++ e :: e' :: b) \/
  (u = a ++ [e] /\ v = e' :: b).
Proof.
  intros H. apply app_eq_app in H as (l & [[-> H]|[-> H]]).
  - destruct l as [|x [|x' l]]; simpl in H.
    + right. left. exists []. rewrite <- H. reflexivity.
    + inversion H; subst. right. right. split; reflexivity.
    + inversion H; subst. left. exists l. reflexivity.
  - right. left. exists l. assumption.
Qed.

Lemma lf_analysis r w : matches r w ->
  (w = [] -> nullable r = true) /\
  (forall t, w = LF :: t -> first_lf r = true) /\
  (forall t, w = t ++ [LF] -> last_lf r = true) /\
  (forall a b, w = a ++ LF :: LF :: b -> double_lf r = true).
Proof.
  induction 1 as [ch|ch L|a b u v Mu IHu Mv IHv|a b u Mu IHu|a b u Mu IHu
                 |a|a u v Mu IHu Mv IHv|a|a u Mu IHu]; simpl.
  - repeat split.
    + discriminate.
    + intros t E. inversion E. reflexivity.
    + intros [|x t] E; inversion E; [reflexivity|]. destruct t; discriminate.
    + intros [|x [|x' a]] b E; inversion E.
  - repeat split.
    + discriminate.
    + intros t E. inversion E; subst. discriminate.
    + intros [|x t] E; inversion E; subst; [discriminate|]. destruct t; discriminate.
    + intros [|x [|x' a]] b E; inversion E.
  - destruct IHu as (Nu & Fu & Lu & Du), IHv as (Nv & Fv & Lv & Dv).
    repeat split.
    + intros E. apply app_eq_nil in E as [-> ->]. rewrite Nu, Nv; reflexivity.
    + intros t E. destruct u as [|x u'].
      * simpl in E. rewrite Nu, (Fv _ E) by reflexivity. apply orb_true_r.
      * inversion E; subst. rewrite (Fu u') by reflexivity. reflexivity.
    + intros t E. apply app_snoc_cases in E as [[-> ->]|(v' & -> & ->)].
      * rewrite Nv, (Lu t) by reflexivity. apply orb_true_r.
      * rewrite (Lv v') by reflexivity. reflexivity.
    + intros a0 b0 E. apply app_double_cases in E as [(l & ->)|[(l & ->)|[-> ->]]].
      * rewrite (Du a0 l) by reflexivity. reflexivity.
      * rewrite (Dv l b0) by reflexivity. rewrite orb_true_r. reflexivity.
      * rewrite (Lu a0), (Fv b0) by reflexivity. apply orb_true_r.
  - destruct IHu as (Nu & Fu & Lu & Du). repeat split.
    + intros E. rewrite (Nu E). reflexivity.
    + intros t E. rewrite (Fu t E). reflexivity.
    + intros t E. rewrite (Lu t E). reflexivity.
    + intros a0 b0 E. rewrite (Du a0 b0 E). reflexivity.
  - destruct IHu as (Nu & Fu & Lu & Du). repeat split.
    + intros E. rewrite (Nu E). apply orb_true_r.
    + intros t E. rewrite (Fu t E). apply orb_true_r.
    + intros t E. rewrite (Lu t E). apply orb_true_r.
    + intros a0 b0 E. rewrite (Du a0 b0 E). apply orb_true_r.
  - repeat split.
    + intros t E. discriminate.
    + intros [|x t] E; discriminate.
    + intros [|x a0] b0 E; discriminate.
  - destruct IHu as (Nu & Fu & Lu & Du), IHv as (Nv & Fv & Lv & Dv).
    simpl in Fv, Lv, Dv. repeat split.
    + intros t E. destruct u as [|x u'].
      * simpl in E. apply (Fv _ E).
      * inversion E; subst. apply (Fu u' eq_refl).
    + intros t E. apply app_snoc_cases in E as [[-> ->]|(v' & -> & ->)].
      * apply (Lu t eq_refl).
      * apply (Lv v' eq_refl).
    + intros a0 b0 E. apply app_double_cases in E as [(l & ->)|[(l & ->)|[-> ->]]].
      * rewrite (Du a0 l) by reflexivity. reflexivity.
      * apply (Dv l b0 eq_refl).
      * rewrite (Lu a0), (Fv b0) by reflexivity. apply orb_true_r.
  - repeat split.
    + intros t E. discriminate.
    + intros [|x t] E; discriminate.
    + intros [|x a0] b0 E; discriminate.
  - destruct IHu as (Nu & Fu & Lu & Du). repeat split; assumption.
Qed.

End LineFeeds.

(** ** Patterns that always succeed, and where a repetition stops *)

Section Greedy.

Lemma star_total a x : m (Star a) x (fun y => Some y) <> None.
Proof. rewrite m_star_unfold. destruct (m a x _); discriminate. Qed.

Lemma opt_total a x : m (Opt a) x (fun y => Some y) <> None.
Proof. simpl. destruct (m a x _); discriminate. Qed.

(** A greedy repetition stops only where one more iteration is
    impossible. *)
Lemma star_stops a (Ha : forall w, matches a w -> w <> []) :
  forall x z, m (Star a) x (fun y => Some y) = Some z ->
  m a z (fun y => Some y) = None.
Proof.
  intros x. remember (length x) as n eqn:Hn. revert x Hn.
  induction n as [n IHn] using lt_wf_ind. intros x Hn z H.
  rewrite m_star_unfold in H.
  destruct (m a x _) as [z'|] eqn:E.
  - inversion H; subst z'. clear H.
    apply m_sound in E as (w & y & -> & Mw & E).
    destruct (Nat.eqb_spec (length y) (length (w ++ y))) as [_|NE];
      [discriminate|].
    apply (IHn (length y)) with (x := y); [|reflexivity|assumption].
    rewrite Hn, length_app.
    assert (length w <> 0) by (destruct w; [exfalso; apply (Ha _ Mw eq_refl)|discriminate]).
    lia.
  - inversion H; subst z. clear H.
    destruct (m a x (fun y => Some y)) as [y|] eqn:E'; [|reflexivity].
    exfalso.
    destruct (m_sound _ _ _ E') as (w & y' & Hx & Mw & Hy). inversion Hy; subst y'.
    destruct (m (Star a) y (fun y0 => Some y0)) as [z0|] eqn:Es;
      [|exact (star_total _ _ Es)].
    assert (Hc : (fun y0 : jsstring =>
                    if length y0 =? length x then None
                    else m (Star a) y0 (fun y1 : jsstring => Some y1)) y = Some z0).
    { simpl. destruct (Nat.eqb_spec (length y) (length x)) as [EQ|_]; [|assumption].
      exfalso. rewrite Hx, length_app in EQ.
      destruct w; [apply (Ha _ Mw eq_refl) | simpl in EQ; lia]. }
    rewrite (m_first a x _ E' Hc) in E. discriminate.
Qed.

End Greedy.

End RegexFacts.
Import RegexFacts.

(** * Facts about [tableRegex] *)

Section TableWords.

Lemma app_same_tail {X} (a b c d : list X) :
  a ++ b = c ++ d -> length b = length d -> a = c /\ b = d.
Proof.
  revert c. induction a as [|x a IH]; intros [|y c] H L; simpl in *.
  - auto.
  - subst b. simpl in L. rewrite length_app in L. lia.
  - subst d. simpl in L. rewrite length_app in L. lia.
  - inversion H; subst. destruct (IH c H2 L) as [-> ->]. auto.
Qed.

Lemma matches_row_inv w : matches row w -> exists h, w = PIPE :: h ++ [PIPE].
Proof.
  intros H. inversion H as [| |a b u v Hu Hv| | | | | |]; subst.
  inversion Hu; subst.
  inversion Hv as [| |a b u' v' Hu' Hv'| | | | | |]; subst.
  inversion Hv'; subst. exists u'. reflexivity.
Qed.

Lemma matches_table_pipe w : matches tableRegex w -> exists t, w = PIPE :: t.
Proof.
  intros H. inversion H as [| |a b u v Hu Hv| | | | | |]; subst.
  apply matches_row_inv in Hu as (h & ->). simpl. eauto.
Qed.

Lemma matches_table_nonempty w : matches tableRegex w -> w <> [].
Proof. intros H. apply matches_table_pipe in H as (t & ->). discriminate. Qed.

Lemma star_ends_pipe a
  (Ha : forall u, matches a u -> exists u', u = u' ++ [PIPE]) :
  forall v, matches (Star a) v -> v = [] \/ exists v', v = v' ++ [PIPE].
Proof.
  intros v H. remember (Star a) as r eqn:Hr.
  induction H as [| | | | | |a0 u v Mu _ Mv IHv| |]; try discriminate.
  - left. reflexivity.
  - inversion Hr; subst a0. right.
    destruct (IHv eq_refl) as [->|(v' & ->)].
    + rewrite app_nil_r. apply (Ha _ Mu).
    + exists (u ++ v'). rewrite app_assoc. reflexivity.
Qed.

Lemma delimiter_ends_pipe d :
  matches delimiter d -> exists d', d = d' ++ [PIPE].
Proof.
  assert (G : forall u, matches (Seq (Plus (Chr HYPHEN)) (Chr PIPE)) u ->
                        exists u', u = u' ++ [PIPE]).
  { intros u H. inversion H as [| |a b u1 u2 H1 H2| | | | | |]; subst.
    inversion H2; subst. eauto. }
  intros H. inversion H as [| |a b u v Hu Hv| | | | | |]; subst.
  inversion Hv as [| |a b g s Hg Hs| | | | | |]; subst.
  apply G in Hg as (g' & ->).
  apply (star_ends_pipe G) in Hs as [->|(s' & ->)].
  - exists (u ++ g'). rewrite app_nil_r, app_assoc. reflexivity.
  - exists (u ++ (g' ++ [PIPE]) ++ s'). rewrite <- !app_assoc. reflexivity.
Qed.

(** The words of the starred rows, cut after the pipe that closes the
    last row. *)
Lemma rows_trim v :
  matches (Star (Seq row (Opt newline))) v ->
  v = [] \/
  exists v0 n, v = v0 ++ n /\ matches (Star (Seq row (Opt newline))) v0 /\
               exists v1, v0 = v1 ++ [PIPE].
Proof.
  intros H. remember (Star (Seq row (Opt newline))) as r eqn:Hr.
  induction H as [| | | | | |a0 u v Mu _ Mv IHv| |]; try discriminate.
  - left. reflexivity.
  - inversion Hr; subst a0. right.
    destruct (IHv eq_refl) as [->|(v0 & n & -> & M0 & v1 & ->)].
    + inversion Mu as [| |a b r0 n Hr0 Hn| | | | | |]; subst.
      exists r0, n. rewrite app_nil_r. split; [reflexivity|]. split.
      * rewrite <- (app_nil_r r0). apply MStarS; [|constructor].
        rewrite <- (app_nil_r r0). constructor; [assumption|constructor].
      * apply matches_row_inv in Hr0 as (h & ->). exists (PIPE :: h). reflexivity.
    + exists (u ++ v1 ++ [PIPE]), n. rewrite <- !app_assoc. split; [reflexivity|].
      split.
      * apply MStarS; assumption.
      * exists (u ++ v1). rewrite <- app_assoc. reflexivity.
Qed.

(** A word of [tableRegex], cut after the last pipe: what is cut is the
    optional newline that ends it. *)
Lemma table_trim w :
  matches tableRegex w ->
  exists w0 n, w = w0 ++ n /\ matches tableRegex w0 /\ exists w1, w0 = w1 ++ [PIPE].
Proof.
  intros H. inversion H as [| |a b w1 t1 H1 Ht1| | | | | |]; subst.
  inversion Ht1 as [| |a b w2 t2 H2 Ht2| | | | | |]; subst.
  inversion Ht2 as [| |a b w3 t3 H3 Ht3| | | | | |]; subst.
  inversion Ht3 as [| |a b w4 w5 H4 H5| | | | | |]; subst.
  destruct (rows_trim H5) as [->|(v0 & n & -> & M0 & v1 & ->)].
  - exists (w1 ++ w2 ++ w3), w4. rewrite app_nil_r, <- !app_assoc.
    split; [reflexivity|]. split.
    + constructor; [assumption|]. constructor; [assumption|].
      rewrite <- (app_nil_r w3). constructor; [assumption|].
      change (@nil code_unit) with (@nil code_unit ++ []).
      constructor; constructor.
    + apply delimiter_ends_pipe in H3 as (d' & ->).
      exists (w1 ++ w2 ++ d'). rewrite <- !app_assoc. reflexivity.
  - exists (w1 ++ w2 ++ w3 ++ w4 ++ v1 ++ [PIPE]), n. rewrite <- !app_assoc.
    split; [reflexivity|]. split.
    + constructor; [assumption|]. constructor; [assumption|].
      constructor; [assumption|]. constructor; assumption.
    + exists (w1 ++ w2 ++ w3 ++ w4 ++ v1). rewrite <- !app_assoc. reflexivity.
Qed.

Lemma table_no_double_lf w a b :
  matches tableRegex w -> w <> a ++ LF :: LF :: b.
Proof.
  intros H E. destruct (lf_analysis H) as (_ & _ & _ & D).
  specialize (D a b E). discriminate.
Qed.

(** A word of [tableRegex] found in front of a blank line ends at the
    first line feed at the latest, and then some word of [tableRegex] ends
    before it. *)
Lemma table_before_blank w r u Z :
  matches tableRegex w -> w ++ r = u ++ LF :: LF :: Z ->
  length w <= S (length u) /\
  exists w0 u0, matches tableRegex w0 /\ u = w0 ++ u0.
Proof.
  intros H E. apply app_eq_app in E as (l & [[-> E]|[-> E]]).
  - destruct l as [|x [|x' l]].
    + rewrite app_nil_r in H. split; [rewrite app_nil_r; lia|].
      exists u, []. rewrite !app_nil_r. auto.
    + split; [rewrite length_app; simpl; lia|].
      inversion E; subst x.
      destruct (table_trim H) as (w0 & n & E0 & M0 & w1 & ->).
      apply eq_sym, app_snoc_cases in E0 as [[-> E0]|(n' & -> & ->)].
      * apply app_inj_tail in E0 as [_ E0]. discriminate.
      * eauto.
    + inversion E; subst. exfalso. apply (table_no_double_lf u l H). reflexivity.
  - split; [rewrite length_app; lia|]. eauto.
Qed.

End TableWords.

Section TableAt.

Lemma table_at_eq x :
  table_at x =
  m row x (fun y1 => m (Opt newline) y1 (fun y2 => m delimiter y2 (fun y3 =>
    m (Opt newline) y3 (fun y4 =>
      m (Star (Seq row (Opt newline))) y4 (fun y => Some y))))).
Proof. reflexivity. Qed.

Lemma table_at_sound x y :
  table_at x = Some y -> exists w, x = w ++ y /\ matches tableRegex w.
Proof.
  intros H. apply m_sound in H as (w & y' & -> & M & E). inversion E; subst y'.
  eauto.
Qed.

Lemma table_at_complete w y :
  matches tableRegex w -> exists z, table_at (w ++ y) = Some z.
Proof. intros H. apply (m_complete H y (fun y => Some y) eq_refl). Qed.

Lemma table_at_shorter x y : table_at x = Some y -> length y < length x.
Proof.
  intros H. apply table_at_sound in H as (w & -> & M).
  apply matches_table_pipe in M as (t & ->). rewrite length_app. simpl. lia.
Qed.

Lemma table_at_nil : table_at [] = None.
Proof. reflexivity. Qed.

Lemma table_at_not_pipe ch x : ch <> PIPE -> table_at (ch :: x) = None.
Proof.
  intros H. destruct (table_at (ch :: x)) as [y|] eqn:E; [|reflexivity].
  apply table_at_sound in E as (w & E & M).
  apply matches_table_pipe in M as (t & ->). inversion E. congruence.
Qed.

(** Greedy: where a match ends, no further row begins, and so no other
    match either. *)
Lemma table_at_no_row x z :
  table_at x = Some z -> m row z (fun y => Some y) = None.
Proof.
  intros H. rewrite table_at_eq in H.
  apply m_sound in H as (w1 & y1 & _ & _ & H).
  apply m_sound in H as (w2 & y2 & _ & _ & H).
  apply m_sound in H as (w3 & y3 & _ & _ & H).
  apply m_sound in H as (w4 & y4 & _ & _ & H).
  apply star_stops in H.
  - destruct (m row z (fun y => Some y)) as [y|] eqn:E; [|reflexivity].
    exfalso.
    destruct (m (Opt newline) y (fun y0 => Some y0)) as [y'|] eqn:E';
      [|exact (opt_total _ _ E')].
    change (m row z (fun y0 => m (Opt newline) y0 (fun y1 => Some y1)) = None) in H.
    rewrite (m_first row z _ E E') in H. discriminate.
  - intros w M E. subst w.
    inversion M as [| |a b u v Hu Hv| | | | | |]; subst.
    apply matches_row_inv in Hu as (h & ->). discriminate.
Qed.

Lemma table_at_maximal x z : table_at x = Some z -> table_at z = None.
Proof.
  intros H. apply table_at_no_row in H. rewrite table_at_eq.
  apply m_first_none. assumption.
Qed.

(** A blank line put after a text in front of which no match begins
    does not make one begin. *)
Lemma table_at_blank_none b ctx Z :
  table_at (b ++ ctx) = None -> table_at (b ++ LF :: LF :: Z) = None.
Proof.
  intros H. destruct (table_at (b ++ LF :: LF :: Z)) as [r|] eqn:E; [|reflexivity].
  exfalso. apply table_at_sound in E as (w & E & M).
  destruct (table_before_blank _ _ _ M (eq_sym E)) as (_ & w0 & u0 & M0 & ->).
  destruct (table_at_complete (u0 ++ ctx) M0) as (z & Hz).
  rewrite <- app_assoc in H. congruence.
Qed.

(** A blank line put right after a match leaves the match where it was,
    or lets it take the first line feed. *)
Lemma table_at_blank_some u Y Z :
  table_at (u ++ Y) = Some Y ->
  table_at (u ++ LF :: LF :: Z) = Some (LF :: LF :: Z) \/
  table_at (u ++ LF :: LF :: Z) = Some (LF :: Z).
Proof.
  intros H.
  destruct (table_at_sound _ H) as (w & Ew & Mu).
  apply app_inv_tail in Ew. subst w.
  destruct (table_at_complete (LF :: LF :: Z) Mu) as (r & Hr).
  rewrite Hr.
  destruct (table_at_sound _ Hr) as (w' & Ew' & Mw').
  destruct (table_before_blank _ _ _ Mw' (eq_sym Ew')) as (Hlen & _).
  set (cY := fun (Y0 y : jsstring) =>
               if length y <? length Y0 then None else Some (length y - length Y0)).
  assert (Hloc : m tableRegex (u ++ Y) (cY Y) =
                 m tableRegex (u ++ LF :: LF :: Z) (cY (LF :: LF :: Z))).
  { apply m_local.
    - intros v1 v2 _. unfold cY. rewrite !length_app.
      destruct (Nat.ltb_spec (length v2 + length Y) (length Y)); [lia|].
      destruct (Nat.ltb_spec (length v2 + length (LF :: LF :: Z))
                             (length (LF :: LF :: Z))); [lia|].
      f_equal. lia.
    - intros y Hy. unfold cY. destruct (Nat.ltb_spec (length y) (length Y));
        [reflexivity|lia].
    - intros y Hy. unfold cY.
      destruct (Nat.ltb_spec (length y) (length (LF :: LF :: Z)));
        [reflexivity|lia]. }
  assert (H0 : m tableRegex (u ++ Y) (cY Y) = Some 0).
  { apply (m_first tableRegex (u ++ Y) (cY Y) H). unfold cY.
    rewrite Nat.ltb_irrefl. f_equal. lia. }
  assert (Hl : length (u ++ LF :: LF :: Z) = length (w' ++ r)) by (rewrite Ew'; reflexivity).
  rewrite !length_app in Hl. simpl in Hl.
  destruct (Nat.ltb_spec (length r) (length (LF :: LF :: Z))) as [Lt|Ge].
  - right. f_equal. simpl in Lt.
    assert (E2 : (u ++ [LF]) ++ LF :: Z = w' ++ r).
    { rewrite <- app_assoc. exact Ew'. }
    apply app_same_tail in E2 as [_ E2]; [congruence|]. simpl. lia.
  - left. f_equal.
    assert (Hc : cY (LF :: LF :: Z) r = Some (length r - length (LF :: LF :: Z))).
    { unfold cY. destruct (Nat.ltb_spec (length r) (length (LF :: LF :: Z)));
        [lia|reflexivity]. }
    rewrite (m_first tableRegex _ _ Hr Hc) in Hloc.
    rewrite H0 in Hloc. inversion Hloc as [Hz].
    apply app_same_tail in Ew' as [_ E2]; [congruence|].
    simpl in Ge |- *. lia.
Qed.

End TableAt.

(** * The loop of [parseMarkdown] computes the segmentation *)

Section Loop.

Lemma unmatched_nil ctx : unmatched [] ctx.
Proof.
  intros a b E Hb. symmetry in E. apply app_eq_nil in E as [_ ->]. contradiction.
Qed.

Lemma unmatched_cons ch pre ctx :
  table_at (ch :: pre ++ ctx) = None -> unmatched pre ctx ->
  unmatched (ch :: pre) ctx.
Proof.
  intros H U [|x a] b E Hb.
  - simpl in E. subst b. exact H.
  - inversion E; subst. apply (U a b eq_refl Hb).
Qed.

Lemma unmatched_tail ch pre ctx : unmatched (ch :: pre) ctx -> unmatched pre ctx.
Proof.
  intros U a b E Hb. apply (U (ch :: a) b); [rewrite E; reflexivity | assumption].
Qed.

Lemma unmatched_head ch pre ctx :
  unmatched (ch :: pre) ctx -> table_at (ch :: pre ++ ctx) = None.
Proof. intros U. apply (U [] (ch :: pre) eq_refl). discriminate. Qed.

(** Either no match begins anywhere in [x], or there is a first one. *)
Lemma first_match x :
  unmatched x [] \/
  exists pre t rest,
    x = pre ++ t ++ rest /\ unmatched pre (t ++ rest) /\
    table_at (t ++ rest) = Some rest.
Proof.
  induction x as [|ch x IH].
  - left. apply unmatched_nil.
  - destruct (table_at (ch :: x)) as [rest|] eqn:E.
    + right. destruct (table_at_sound _ E) as (w & Ew & _).
      exists [], w, rest. rewrite <- Ew.
      repeat split; [apply unmatched_nil | assumption].
    + destruct IH as [U|(pre & t & rest & -> & U & H)].
      * left. apply unmatched_cons; [rewrite app_nil_r; assumption | assumption].
      * right. exists (ch :: pre), t, rest. repeat split; [|assumption].
        apply unmatched_cons; assumption.
Qed.

Lemma segmented_total : forall n x, length x <= n ->
  forall o, exists l, segmented o x l.
Proof.
  induction n as [|n IH]; intros x Hx o.
  - exists (prose_part o x). apply seg_last.
    destruct x; [apply unmatched_nil | simpl in Hx; lia].
  - destruct (first_match x) as [U|(pre & t & rest & -> & U & H)].
    + eexists. apply seg_last; assumption.
    + pose proof (table_at_shorter _ H) as L. rewrite !length_app in *.
      destruct (IH rest) with (o := o + length pre + length t) as (l & Hl); [lia|].
      eexists. apply seg_match; eassumption.
Qed.

Lemma scan_table x i :
  scan tableRegex x i =
  match table_at x with
  | Some y => Some (i, i + (length x - length y))
  | None => match x with [] => None | _ :: x' => scan tableRegex x' (S i) end
  end.
Proof. destruct x; reflexivity. Qed.

Lemma scan_none x : forall i, unmatched x [] -> scan tableRegex x i = None.
Proof.
  induction x as [|ch x IH]; intros i U; rewrite scan_table.
  - rewrite table_at_nil. reflexivity.
  - pose proof (unmatched_head U) as H. rewrite app_nil_r in H. rewrite H.
    apply IH. apply (unmatched_tail U).
Qed.

Lemma scan_found pre ctx rest : forall i,
  unmatched pre ctx -> table_at ctx = Some rest ->
  scan tableRegex (pre ++ ctx) i =
  Some (i + length pre, i + length pre + (length ctx - length rest)).
Proof.
  induction pre as [|ch pre IH]; intros i U H; simpl app; rewrite scan_table.
  - rewrite H. simpl. rewrite !Nat.add_0_r. reflexivity.
  - rewrite (unmatched_head U). rewrite (IH (S i) (unmatched_tail U) H).
    simpl. f_equal. f_equal; lia.
Qed.

Lemma substring_skipn D o pre tl :
  skipn o D = pre ++ tl -> o <= length D ->
  substring D o (o + length pre) = pre.
Proof.
  intros E Ho. unfold substring. cbv zeta.
  assert (L : length D - o = length pre + length tl)
    by (rewrite <- length_skipn, E, length_app; reflexivity).
  replace (Nat.min o (length D)) with o by lia.
  replace (Nat.min (o + length pre) (length D)) with (o + length pre) by lia.
  replace (Nat.max o (o + length pre) - Nat.min o (o + length pre))
    with (length pre) by lia.
  replace (Nat.min o (o + length pre)) with o by lia.
  rewrite E, firstn_app, firstn_all, Nat.sub_diag. simpl. apply app_nil_r.
Qed.

Lemma skipn_more (D : jsstring) o pre tl :
  skipn o D = pre ++ tl -> skipn (o + length pre) D = tl.
Proof.
  intros E. rewrite Nat.add_comm, <- (skipn_skipn (length pre) o D), E.
  rewrite skipn_app, skipn_all, Nat.sub_diag. reflexivity.
Qed.

Lemma parse_loop_segmented o x l :
  segmented o x l ->
  forall D fuel acc, skipn o D = x -> o <= length D -> length x < fuel ->
  parse_loop fuel D o acc = Some (acc ++ l).
Proof.
  induction 1 as [o x U | o pre t rest l U H Hs IH]; intros D fuel acc E Ho Hf.
  - destruct fuel as [|fuel]; [lia|]. cbn [parse_loop]. unfold exec.
    destruct (Nat.ltb_spec (length D) o); [lia|]. rewrite E, (scan_none _ U).
    assert (L : length x = length D - o) by (rewrite <- E; apply length_skipn).
    destruct x as [|ch x'].
    + simpl in L. destruct (Nat.ltb_spec o (length D)); [lia|].
      simpl. rewrite app_nil_r. reflexivity.
    + simpl in L. destruct (Nat.ltb_spec o (length D)); [|lia].
      simpl prose_part. do 4 f_equal.
      replace (length D) with (o + length (ch :: x')) by (simpl; lia).
      apply (@substring_skipn D o (ch :: x') []); [|lia].
      rewrite app_nil_r. exact E.
  - destruct fuel as [|fuel]; [lia|]. cbn [parse_loop]. unfold exec.
    destruct (Nat.ltb_spec (length D) o); [lia|]. rewrite E.
    rewrite (scan_found _ U H). cbv zeta.
    pose proof (table_at_shorter _ H) as Lt.
    assert (L : length D - o = length (pre ++ t ++ rest))
      by (rewrite <- E; symmetry; apply length_skipn).
    rewrite !length_app in *.
    replace (length t + length rest - length rest) with (length t) by lia.
    pose proof (@skipn_more D o pre (t ++ rest) E) as E1.
    pose proof (@skipn_more D (o + length pre) t rest E1) as E2.
    rewrite (@substring_skipn D o pre (t ++ rest) E Ho).
    rewrite (@substring_skipn D (o + length pre) t rest E1) by lia.
    rewrite (IH D fuel _ E2) by lia.
    f_equal. destruct pre as [|ch pre'].
    + simpl. destruct (Nat.ltb_spec o (o + 0)); [lia|].
      rewrite <- app_assoc. reflexivity.
    + destruct (Nat.ltb_spec o (o + length (ch :: pre'))); [|simpl in *; lia].
      simpl prose_part. rewrite <- !app_assoc. reflexivity.
Qed.

(** [parseMarkdown] returns, and what it returns is the segmentation. *)
Lemma parseMarkdown_segmented D :
  exists parts, parseMarkdown D = Some parts /\ segmented 0 D parts.
Proof.
  destruct (@segmented_total (length D) D (le_n _) 0) as (l & Hl).
  exists l. split; [|assumption].
  unfold parseMarkdown. apply (@parse_loop_segmented 0 D l Hl D (S (length D)) []).
  - reflexivity.
  - lia.
  - lia.
Qed.

Lemma parseMarkdown_inv D parts :
  parseMarkdown D = Some parts -> segmented 0 D parts.
Proof.
  intros H. destruct (parseMarkdown_segmented D) as (l & E & S).
  rewrite H in E. inversion E; subst. assumption.
Qed.

End Loop.

(** * Facts about the segmentation *)

Section Partition.

Lemma prose_part_concat o x : concat (map content (prose_part o x)) = x.
Proof. destruct x; [reflexivity|]. simpl. rewrite app_nil_r. reflexivity. Qed.

Lemma segmented_concat o x l : segmented o x l -> concat (map content l) = x.
Proof.
  induction 1 as [o x U | o pre t rest l U H Hs IH].
  - apply prose_part_concat.
  - rewrite map_app, concat_app, prose_part_concat. simpl. rewrite IH. reflexivity.
Qed.



End Partition.

Section Ids.

Lemma units_inj s s' : units s = units s' -> s = s'.
Proof.
  unfold units. intros H.
  apply (f_equal (map ascii_of_N)) in H. rewrite !map_map in H.
  assert (Hm : forall l, map (fun a => ascii_of_N (N_of_ascii a)) l = l).
  { induction l as [|a l IH]; simpl; [|rewrite ascii_N_embedding, IH]; reflexivity. }
  rewrite !Hm in H.
  rewrite <- (string_of_list_ascii_of_string s), <- (string_of_list_ascii_of_string s').
  rewrite H. reflexivity.
Qed.

Lemma decimal_inj n n' : decimal n = decimal n' -> n = n'.
Proof.
  unfold decimal. intros H. apply units_inj in H.
  apply Unsigned.to_uint_inj.
  assert (E : NilEmpty.uint_of_string (NilEmpty.string_of_uint (Nat.to_uint n)) =
              NilEmpty.uint_of_string (NilEmpty.string_of_uint (Nat.to_uint n')))
    by (rewrite H; reflexivity).
  rewrite !NilEmpty.usu in E. inversion E. reflexivity.
Qed.

Lemma part_id_inj k o k' o' : part_id k o = part_id k' o' -> k = k' /\ o = o'.
Proof.
  destruct k, k'; unfold part_id, md_id, tbl_id; intros H.
  - apply app_inv_head in H. apply decimal_inj in H. auto.
  - discriminate.
  - discriminate.
  - apply app_inv_head in H. apply decimal_inj in H. auto.
Qed.

End Ids.

Section IdsOfParts.

(** Every part carries the index it begins at, and the indices grow. *)
Lemma segmented_ids o x l :
  segmented o x l ->
  Forall (fun p => exists o', o <= o' /\ id p = part_id (type p) o') l /\
  NoDup (map id l) /\
  forall before p after, l = before ++ p :: after ->
    id p = part_id (type p) (o + length (concat (map content before))).
Proof.
  induction 1 as [o x U | o pre t rest l U H Hs (IHF & IHN & IHO)].
  - destruct x as [|ch x]; simpl.
    + repeat split; [constructor | constructor |].
      intros [|? ?] p after E; discriminate.
    + repeat split.
      * constructor; [|constructor]. exists o. split; [lia|reflexivity].
      * constructor; [intros []|constructor].
      * intros [|? [|? ?]] p after E; inversion E; subst. simpl.
        rewrite Nat.add_0_r. reflexivity.
  - pose proof (table_at_shorter _ H) as Lt. rewrite length_app in Lt.
    assert (IHF' : Forall (fun p => exists o', o + length pre < o' /\
                                    id p = part_id (type p) o') l).
    { eapply Forall_impl; [|exact IHF]. intros p (o' & Ho' & E).
      exists o'. split; [lia|assumption]. }
    assert (Hnot : forall k o0, o0 <= o + length pre ->
                   ~ In (part_id k o0) (map id l)).
    { intros k o0 Ho0 Hin. apply in_map_iff in Hin as (p & E & Hp).
      rewrite Forall_forall in IHF'. destruct (IHF' p Hp) as (o' & Ho' & E').
      rewrite E' in E. apply part_id_inj in E as [_ E]. lia. }
    destruct pre as [|ch pre']; simpl prose_part; simpl app.
    + repeat split.
      * constructor.
        -- exists (o + 0). split; [lia|reflexivity].
        -- eapply Forall_impl; [|exact IHF]. intros p (o' & Ho' & E).
           exists o'. split; [lia|assumption].
      * simpl. constructor; [|assumption]. apply (Hnot table). simpl. lia.
      * intros [|p0 before] p after E; inversion E; subst.
        -- simpl. rewrite Nat.add_0_r. reflexivity.
        -- rewrite (IHO before p after eq_refl). f_equal.
           cbn [map concat content]. rewrite !length_app. simpl. lia.
    + repeat split.
      * constructor; [exists o; split; [lia|reflexivity]|].
        constructor; [exists (o + length (ch :: pre')); split; [lia|reflexivity]|].
        eapply Forall_impl; [|exact IHF]. intros p (o' & Ho' & E).
        exists o'. split; [lia|assumption].
      * simpl map. constructor.
        -- intros [E|Hin].
           ++ change (part_id table (o + length (ch :: pre')) = part_id markdown o) in E.
              apply part_id_inj in E as [E _]. discriminate.
           ++ apply (Hnot markdown o) in Hin; [assumption|lia].
        -- constructor; [|assumption]. apply (Hnot table). simpl. lia.
      * intros [|p0 [|p1 before]] p after E; inversion E; subst.
        -- simpl. rewrite Nat.add_0_r. reflexivity.
        -- simpl. rewrite app_nil_r. reflexivity.
        -- rewrite (IHO before p after eq_refl). f_equal.
           cbn [map concat content]. rewrite !length_app. simpl. lia.
Qed.

End IdsOfParts.

Section Updates.

Lemma handleTableUpdate_ids i new parts :
  map id (handleTableUpdate i new parts) = map id parts.
Proof.
  unfold handleTableUpdate. rewrite map_map. apply map_ext.
  intros p. destruct (list_eq_dec N.eq_dec (id p) i); reflexivity.
Qed.

Lemma handleTableUpdate_other i new parts :
  ~ In i (map id parts) -> handleTableUpdate i new parts = parts.
Proof.
  intros H. unfold handleTableUpdate. rewrite <- (map_id parts) at 2.
  apply map_ext_in. intros p Hp.
  destruct (list_eq_dec N.eq_dec (id p) i) as [E|_]; [|reflexivity].
  exfalso. apply H. rewrite <- E. apply in_map. assumption.
Qed.

Lemma handleTableUpdate_app i new l1 l2 :
  handleTableUpdate i new (l1 ++ l2) =
  handleTableUpdate i new l1 ++ handleTableUpdate i new l2.
Proof. apply map_app. Qed.

Lemma held_NoDup parts : held parts -> NoDup (map id parts).
Proof.
  induction 1 as [|md parts E|parts i new Hh IH].
  - constructor.
  - destruct md as [|ch md].
    + inversion E; subst. constructor.
    + simpl in E. apply parseMarkdown_inv in E.
      apply (segmented_ids E).
  - rewrite handleTableUpdate_ids. assumption.
Qed.

End Updates.

Section Reclassification.

Lemma segmented_nil_inv o x : segmented o x [] -> x = [].
Proof. intros H. apply segmented_concat in H. simpl in H. auto. Qed.

(** The same text scanned from another index: the same parts, but for
    their ids. *)
Lemma segmented_shift o x l :
  segmented o x l ->
  forall o', exists l', segmented o' x l' /\ map type l' = map type l.
Proof.
  induction 1 as [o x U | o pre t rest l U H Hs IH]; intros o'.
  - exists (prose_part o' x). split; [apply seg_last; assumption|].
    destruct x; reflexivity.
  - destruct (IH (o' + length pre + length t)) as (l' & Hl' & Et).
    exists (prose_part o' pre ++ mkPart (tbl_id (o' + length pre)) table t :: l').
    split; [apply seg_match; assumption|].
    rewrite !map_app. simpl. rewrite Et. destruct pre; reflexivity.
Qed.

(** Where no match begins, the first part is prose. *)
Lemma segmented_head_prose o x l :
  segmented o x l -> table_at x = None ->
  match l with [] => True | p :: _ => type p = markdown end.
Proof.
  intros Hs Hn. destruct Hs as [o x U | o pre t rest l U H Hs].
  - destruct x; simpl; auto.
  - destruct pre as [|ch pre]; simpl in *; [congruence | reflexivity].
Qed.

(** One more code unit that is not a pipe, in front of a text whose
    first part is prose, lengthens that part. *)
Lemma segmented_prepend o x l ch :
  segmented o x l -> ch <> PIPE ->
  match l with [] => False | p :: _ => type p = markdown end ->
  forall o', exists l', segmented o' (ch :: x) l' /\ map type l' = map type l.
Proof.
  intros Hs Hch Hl o'. destruct Hs as [o x U | o pre t rest l U H Hs].
  - destruct x as [|e x]; [contradiction|].
    exists (prose_part o' (ch :: e :: x)). split; [|reflexivity].
    apply seg_last. apply unmatched_cons; [|assumption].
    apply table_at_not_pipe. assumption.
  - destruct pre as [|e pre]; [simpl in Hl; discriminate|].
    destruct (segmented_shift Hs (o' + length (ch :: e :: pre) + length t))
      as (l' & Hl' & Et).
    exists (prose_part o' (ch :: e :: pre) ++
            mkPart (tbl_id (o' + length (ch :: e :: pre))) table t :: l').
    split.
    + change (ch :: (e :: pre) ++ t ++ rest) with ((ch :: e :: pre) ++ t ++ rest).
      apply seg_match; [|assumption|assumption].
      apply unmatched_cons; [|assumption].
      apply table_at_not_pipe. assumption.
    + simpl. rewrite Et. reflexivity.
Qed.

Lemma LF_not_PIPE : LF <> PIPE.
Proof. discriminate. Qed.

(** A blank line after a text in which no match begins: no match begins
    in the text and the blank line either. *)
Lemma unmatched_blank pre ctx Z :
  unmatched pre ctx -> unmatched (pre ++ [LF; LF]) Z.
Proof.
  induction pre as [|ch pre IH]; intros U.
  - simpl. apply unmatched_cons; [apply table_at_not_pipe, LF_not_PIPE|].
    apply unmatched_cons; [apply table_at_not_pipe, LF_not_PIPE|].
    apply unmatched_nil.
  - simpl. apply unmatched_cons.
    + rewrite <- app_assoc. simpl.
      apply (@table_at_blank_none (ch :: pre) ctx Z).
      apply (unmatched_head U).
    + apply IH. apply (unmatched_tail U).
Qed.

(** The text of a table part followed by the joined texts of the parts
    after it begins with a match, and what follows that match is
    classified as the parts were. *)
Lemma rejoin_table t rest l o :
  table_at (t ++ rest) = Some rest ->
  segmented o rest l ->
  (forall o', exists l', segmented o' (combinedMarkdown l) l' /\
                         map type l' = map type l) ->
  exists t2 rest2,
    join [LF; LF] (t :: map content l) = t2 ++ rest2 /\
    table_at (t2 ++ rest2) = Some rest2 /\
    forall o', exists l', segmented o' rest2 l' /\ map type l' = map type l.
Proof.
  intros H Hs IH. destruct l as [|p l].
  - apply segmented_nil_inv in Hs. subst rest.
    exists t, []. simpl. split; [symmetry; apply app_nil_r|]. split; [assumption|].
    intros o'. exists (prose_part o' []). split; [|reflexivity].
    apply seg_last, unmatched_nil.
  - pose proof (segmented_head_prose Hs (table_at_maximal _ H)) as Hp.
    change (join [LF; LF] (t :: map content (p :: l)))
      with (t ++ LF :: LF :: combinedMarkdown (p :: l)).
    assert (Hpre : forall o', exists l',
              segmented o' (LF :: combinedMarkdown (p :: l)) l' /\
              map type l' = map type (p :: l)).
    { intros o'. destruct (IH 0) as (l0 & Hl0 & Et0).
      rewrite <- Et0. apply (segmented_prepend Hl0 LF_not_PIPE).
      destruct l0; [discriminate|]. simpl in Et0. inversion Et0. congruence. }
    destruct (@table_at_blank_some t rest (combinedMarkdown (p :: l)) H) as [E|E].
    + exists t, (LF :: LF :: combinedMarkdown (p :: l)).
      repeat split; [assumption|].
      intros o'. destruct (Hpre 0) as (l1 & Hl1 & Et1).
      destruct (segmented_prepend Hl1 LF_not_PIPE) with (o' := o') as (l2 & Hl2 & Et2).
      * destruct l1; [discriminate|]. simpl in Et1. inversion Et1. congruence.
      * exists l2. split; [assumption|congruence].
    + exists (t ++ [LF]), (LF :: combinedMarkdown (p :: l)).
      rewrite <- !app_assoc. simpl. repeat split; [assumption|].
      apply Hpre.
Qed.

Lemma rejoin o x l :
  segmented o x l ->
  forall o', exists l', segmented o' (combinedMarkdown l) l' /\
                        map type l' = map type l.
Proof.
  induction 1 as [o x U | o pre t rest l U H Hs IH]; intros o'.
  - destruct x as [|ch x].
    + exists []. split; [apply (@seg_last o' [] (unmatched_nil [])) | reflexivity].
    + exists (prose_part o' (ch :: x)). split; [|reflexivity].
      apply seg_last. assumption.
  - destruct (rejoin_table t H Hs IH) as (t2 & rest2 & Ej & H2 & Hl2).
    destruct pre as [|ch pre].
    + destruct (Hl2 (o' + length (@nil code_unit) + length t2)) as (l2 & Hs2 & Et2).
      exists (prose_part o' [] ++ mkPart (tbl_id (o' + length (@nil code_unit))) table t2 :: l2).
      split.
      * change (combinedMarkdown
                  (prose_part o [] ++
                   mkPart (tbl_id (o + length (@nil code_unit))) table t :: l))
          with (join [LF; LF] (t :: map content l)).
        rewrite Ej. exact (@seg_match o' [] t2 rest2 l2 (unmatched_nil (t2 ++ rest2)) H2 Hs2).
      * simpl. rewrite Et2. reflexivity.
    + destruct (Hl2 (o' + length ((ch :: pre) ++ [LF; LF]) + length t2))
        as (l2 & Hs2 & Et2).
      exists (prose_part o' ((ch :: pre) ++ [LF; LF]) ++
              mkPart (tbl_id (o' + length ((ch :: pre) ++ [LF; LF]))) table t2 :: l2).
      split.
      * change (combinedMarkdown
                  (prose_part o (ch :: pre) ++
                   mkPart (tbl_id (o + length (ch :: pre))) table t :: l))
          with ((ch :: pre) ++ [LF; LF] ++ join [LF; LF] (t :: map content l)).
        rewrite Ej, (app_assoc (ch :: pre) [LF; LF] (t2 ++ rest2)).
        exact (@seg_match o' ((ch :: pre) ++ [LF; LF]) t2 rest2 l2
                 (unmatched_blank (t2 ++ rest2) U) H2 Hs2).
      * simpl. rewrite Et2. reflexivity.
Qed.

End Reclassification.

Section NoTable.


End NoTable.

Section Tables.

Lemma split_cons_cases {X} (p0 : X) l before p after :
  p0 :: l = before ++ p :: after ->
  (before = [] /\ p = p0 /\ after = l) \/
  (exists before', before = p0 :: before' /\ l = before' ++ p :: after).
Proof.
  destruct before as [|q before]; simpl; intros E; inversion E; subst.
  - left. auto.
  - right. eauto.
Qed.

Lemma unmatched_begins pre ctx a b :
  unmatched pre ctx -> pre = a ++ b -> b <> [] ->
  ~ begins tableRegex (b ++ ctx).
Proof.
  intros U E Hb (w & tl & Ew & M).
  destruct (table_at_complete tl M) as (z & Hz).
  rewrite <- Ew, (U a b E Hb) in Hz. discriminate.
Qed.

Lemma table_at_no_row_begins x z :
  table_at x = Some z -> ~ begins row z.
Proof.
  intros H (r & tl & -> & M). apply table_at_no_row in H.
  destruct (m_complete M tl (fun y => Some y) eq_refl) as (z' & Hz).
  congruence.
Qed.

(** Each part of a segmentation, with the text that follows it. *)
Lemma segmented_parts o x l :
  segmented o x l ->
  forall before p after, l = before ++ p :: after ->
    (type p = table ->
       matches tableRegex (content p) /\
       ~ begins row (concat (map content after))) /\
    (type p = markdown ->
       forall a b, content p = a ++ b -> b <> [] ->
       ~ begins tableRegex (b ++ concat (map content after))).
Proof.
  induction 1 as [o x U | o pre t rest l U H Hs IH]; intros before p after E.
  - destruct x as [|ch x]; simpl in E.
    + destruct before; discriminate.
    + apply split_cons_cases in E as [(-> & -> & ->)|(before' & -> & E)];
        [|destruct before'; discriminate].
      split; [discriminate|]. intros _ a b Ea Hb. simpl in Ea.
      apply (@unmatched_begins _ _ a b U Ea Hb).
  - assert (Ht : matches tableRegex t /\ ~ begins row (concat (map content l))).
    { split.
      - destruct (table_at_sound _ H) as (w & Ew & M).
        apply app_inv_tail in Ew. subst w. assumption.
      - rewrite (segmented_concat Hs). apply (@table_at_no_row_begins _ _ H). }
    destruct pre as [|ch pre]; simpl in E.
    + apply split_cons_cases in E as [(-> & -> & ->)|(before' & -> & E)].
      * split; [intros _; exact Ht | discriminate].
      * apply (IH before' p after E).
    + apply split_cons_cases in E as [(-> & -> & ->)|(before' & -> & E)].
      * split; [discriminate|]. intros _ a b Ea Hb. simpl in Ea.
        simpl. rewrite (segmented_concat Hs).
        apply (@unmatched_begins _ _ a b U Ea Hb).
      * apply split_cons_cases in E as [(-> & -> & ->)|(before'' & -> & E)].
        -- split; [intros _; exact Ht | discriminate].
        -- apply (IH before'' p after E).
Qed.

End Tables.

(** * Table regions written line by line are matched whole *)

Section Forward.

Lemma m_seq {A} a b x (c : cont A) :
  m (Seq a b) x c = m a x (fun y => m b y c).
Proof. reflexivity. Qed.

Lemma m_chr_eq {A} ch y (c : cont A) : m (Chr ch) (ch :: y) c = c y.
Proof. simpl. rewrite N.eqb_refl. reflexivity. Qed.

Lemma m_chr_neq {A} ch ch' y (c : cont A) :
  ch <> ch' -> m (Chr ch) (ch' :: y) c = None.
Proof. intros H. simpl. destruct (N.eqb_spec ch ch'); [contradiction|reflexivity]. Qed.

Lemma m_dot_plain {A} ch y (c : cont A) :
  line_terminator ch = false -> m Dot (ch :: y) c = c y.
Proof. intros H. simpl. rewrite H. reflexivity. Qed.

Lemma length_tail_neq {X} (e : X) y : (length y =? length (e :: y)) = false.
Proof. apply Nat.eqb_neq. simpl. lia. Qed.

Lemma star_dot_line_end tl (c : cont jsstring) :
  line_end tl -> m (Star Dot) tl (fun y => m (Chr PIPE) y c) = None.
Proof.
  intros [->|(tl' & ->)]; rewrite m_star_unfold; reflexivity.
Qed.

(** [.*] runs to the end of the line and gives back the closing pipe. *)
Lemma star_dot_pipe h tl :
  plain h = true -> line_end tl ->
  m (Star Dot) (h ++ PIPE :: tl) (fun y => m (Chr PIPE) y (fun z => Some z)) = Some tl.
Proof.
  intros Hh Htl. induction h as [|ch h IH]; simpl app; rewrite m_star_unfold.
  - rewrite m_dot_plain by reflexivity. rewrite length_tail_neq.
    rewrite (star_dot_line_end _ Htl). apply m_chr_eq.
  - simpl in Hh. apply andb_true_iff in Hh as [Hc Hh].
    rewrite m_dot_plain by (apply negb_true_iff; assumption).
    rewrite length_tail_neq, (IH Hh). reflexivity.
Qed.

Lemma row_first h tl :
  plain h = true -> line_end tl ->
  m row (cell_row h ++ tl) (fun y => Some y) = Some tl.
Proof.
  intros Hh Htl. unfold row, cell_row. rewrite m_seq. simpl app.
  rewrite m_chr_eq, m_seq, <- app_assoc. apply star_dot_pipe; assumption.
Qed.

Lemma opt_newline_lf {A} y (c : cont A) z :
  c y = Some z -> m (Opt newline) (LF :: y) c = Some z.
Proof.
  intros H. unfold newline. simpl.
  rewrite (proj2 (Nat.eqb_neq _ _) (Nat.neq_succ_diag_r (length y))), H.
  reflexivity.
Qed.

Lemma opt_newline_nil {A} (c : cont A) : m (Opt newline) [] c = c [].
Proof. reflexivity. Qed.

(** A run of hyphens and its pipe are read in one way only. *)
Lemma star_hyphen_pipe {A} k tl (c : cont A) :
  m (Star (Chr HYPHEN)) (repeat HYPHEN k ++ PIPE :: tl)
    (fun y => m (Chr PIPE) y c) = c tl.
Proof.
  induction k as [|k IH]; simpl app; simpl repeat; rewrite m_star_unfold.
  - rewrite m_chr_neq by discriminate. apply m_chr_eq.
  - rewrite m_chr_eq, length_tail_neq, IH.
    destruct (c tl); [reflexivity|]. apply m_chr_neq. discriminate.
Qed.

Lemma hyphen_group_pipe {A} k tl (c : cont A) :
  m (Seq (Plus (Chr HYPHEN)) (Chr PIPE)) (hyphen_group k ++ tl) c = c tl.
Proof.
  unfold hyphen_group, Plus. rewrite <- app_assoc. simpl app. simpl repeat.
  rewrite !m_seq, m_chr_eq. apply star_hyphen_pipe.
Qed.

Lemma hyphen_group_line_end {A} tl (c : cont A) :
  line_end tl -> m (Seq (Plus (Chr HYPHEN)) (Chr PIPE)) tl c = None.
Proof. intros [->|(tl' & ->)]; reflexivity. Qed.

Lemma hyphen_group_length k tl :
  (length tl =? length (hyphen_group k ++ tl)) = false.
Proof.
  apply Nat.eqb_neq. unfold hyphen_group. rewrite !length_app. simpl. lia.
Qed.

(** The groups of a delimiter row are all taken when what follows the
    row is accepted. *)
Lemma star_groups {A} ks tl (c : cont A) z :
  line_end tl -> c tl = Some z ->
  m (Star (Seq (Plus (Chr HYPHEN)) (Chr PIPE)))
    (concat (map hyphen_group ks) ++ tl) c = Some z.
Proof.
  intros Htl Hc.
  induction ks as [|k ks IH]; cbn [map concat app]; rewrite m_star_unfold.
  - rewrite (hyphen_group_line_end _ Htl). assumption.
  - rewrite <- app_assoc, hyphen_group_pipe, hyphen_group_length, IH. reflexivity.
Qed.

Lemma delimiter_first {A} ks tl (c : cont A) z :
  ks <> [] -> line_end tl -> c tl = Some z ->
  m delimiter (delimiter_row ks ++ tl) c = Some z.
Proof.
  intros Hks Htl Hc. destruct ks as [|k ks]; [contradiction|].
  unfold delimiter, delimiter_row. cbn [map concat app].
  rewrite m_seq, m_chr_eq. unfold Plus at 1.
  rewrite m_seq, <- app_assoc, hyphen_group_pipe.
  apply star_groups; assumption.
Qed.

Lemma rowline_line_end {A} tl (c : cont A) :
  line_end tl -> m (Seq row (Opt newline)) tl c = None.
Proof. intros [->|(tl' & ->)]; reflexivity. Qed.

Lemma star_rows_line_end tl :
  line_end tl ->
  m (Star (Seq row (Opt newline))) tl (fun y => Some y) = Some tl.
Proof. intros H. rewrite m_star_unfold, (rowline_line_end _ H). reflexivity. Qed.

Lemma rows_text_line_end rows after rem :
  leaves after rem ->
  line_end (concat (map (fun h => LF :: cell_row h) rows) ++ after).
Proof.
  intros H. destruct rows as [|h rows]; simpl.
  - destruct H; [left; reflexivity | right; eauto].
  - right. eauto.
Qed.

Lemma leaves_line_end after rem : leaves after rem -> line_end rem.
Proof. intros []; [left; reflexivity | right; eauto]. Qed.

(** The rows of a region written line by line are all taken, each with
    the line feed in front of it, and so is the first line feed of a blank
    line after them. *)
Lemma rows_first rows after rem :
  forallb plain rows = true -> leaves after rem ->
  m (Opt newline) (concat (map (fun h => LF :: cell_row h) rows) ++ after)
    (fun y => m (Star (Seq row (Opt newline))) y (fun z => Some z)) = Some rem.
Proof.
  intros Hrows Hl. induction rows as [|h rows IH]; cbn [map concat app].
  - destruct Hl as [|X].
    + rewrite opt_newline_nil. apply star_rows_line_end. left. reflexivity.
    + apply opt_newline_lf. apply star_rows_line_end. right. eauto.
  - simpl in Hrows. apply andb_true_iff in Hrows as [Hh Hrows].
    apply opt_newline_lf. rewrite m_star_unfold, m_seq, <- app_assoc.
    set (rest := concat (map (fun h0 => LF :: cell_row h0) rows) ++ after).
    assert (Hr : m row (cell_row h ++ rest) (fun y => Some y) = Some rest).
    { apply row_first; [assumption|]. apply (rows_text_line_end rows Hl). }
    rewrite (m_first row (cell_row h ++ rest) _ Hr (b := rem)); [reflexivity|].
    rewrite <- (IH Hrows). apply m_ext. intros y Hy.
    destruct (Nat.eqb_spec (length y) (length (cell_row h ++ rest))) as [E|_];
      [|reflexivity].
    unfold rest, cell_row in *. rewrite !length_app in *. simpl in E. lia.
Qed.

(** A region written line by line is matched whole. *)
Lemma table_region_first T after rem :
  table_region T -> leaves after rem -> table_at (T ++ after) = Some rem.
Proof.
  intros [header ks rows Hh Hks Hrows] Hl. rewrite table_at_eq.
  rewrite <- app_assoc. cbn [app]. rewrite <- app_assoc.
  set (rowsText := concat (map (fun h => LF :: cell_row h) rows) ++ after).
  assert (Hr : m row (cell_row header ++ LF :: delimiter_row ks ++ rowsText)
                 (fun y => Some y) = Some (LF :: delimiter_row ks ++ rowsText)).
  { apply row_first; [assumption|]. right. eauto. }
  apply (m_first row _ _ Hr).
  apply opt_newline_lf.
  apply delimiter_first; [assumption | apply (rows_text_line_end rows Hl) |].
  apply rows_first; assumption.
Qed.

End Forward.

Section Regions.

Lemma tableA_region : table_region tableA.
Proof. apply (@table_region_lines (units "a") [0] []); [reflexivity | discriminate | reflexivity]. Qed.

Lemma tableB_region : table_region tableB.
Proof. apply (@table_region_lines (units "b") [0] []); [reflexivity | discriminate | reflexivity]. Qed.

End Regions.

(** * The words of [tableRegex], spelled out *)

Section TableText.

Lemma matches_star_dot h : matches (Star Dot) h <-> plain h = true.
Proof.
  split.
  - intros H. remember (Star Dot) as r eqn:Hr.
    induction H as [| | | | | |a u v Mu _ Mv IHv| |]; try discriminate.
    + reflexivity.
    + inversion Hr; subst a. inversion Mu as [|ch L| | | | | | |]; subst.
      simpl. rewrite L. simpl. apply (IHv eq_refl).
  - induction h as [|ch h IH]; intros H.
    + constructor.
    + simpl in H. apply andb_true_iff in H as [Hc Hh].
      change (ch :: h) with ([ch] ++ h). constructor; [|apply (IH Hh)].
      constructor. apply negb_true_iff. assumption.
Qed.

Lemma matches_row h' : matches row h' <-> exists h, h' = cell_row h /\ plain h = true.
Proof.
  split.
  - intros H. inversion H as [| |a b u v Hu Hv| | | | | |]; subst.
    inversion Hu; subst.
    inversion Hv as [| |a b u' v' Hu' Hv'| | | | | |]; subst.
    inversion Hv'; subst. exists u'. split; [reflexivity|].
    apply matches_star_dot. assumption.
  - intros (h & -> & Hh). unfold row, cell_row.
    change (PIPE :: h ++ [PIPE]) with ([PIPE] ++ h ++ [PIPE]).
    constructor; [constructor|]. constructor; [|constructor].
    apply matches_star_dot. assumption.
Qed.

Lemma matches_opt_newline n : matches (Opt newline) n <-> opt_newline n.
Proof.
  unfold opt_newline. split.
  - intros H. inversion H as [| | | | | | |a|a u Hu]; subst; [auto|].
    inversion Hu as [| | |a b u' Hu'|a b u' Hu'| | | |]; subst.
    + inversion Hu' as [| |a b u1 u2 H1 H2| | | | | |]; subst.
      inversion H2; subst.
      inversion H1 as [| | | | | | |a|a u3 H3]; subst; [auto|].
      inversion H3; subst. auto.
    + inversion Hu'; subst. auto.
  - intros [-> | [-> | [-> | -> ]]].
    + constructor.
    + apply MOpt1, MAltL. change [LF] with ([] ++ [LF]).
      constructor; constructor.
    + apply MOpt1, MAltL. change [CR; LF] with ([CR] ++ [LF]).
      constructor; [apply MOpt1|]; constructor.
    + apply MOpt1, MAltR. constructor.
Qed.

Lemma matches_star_hyphen v :
  matches (Star (Chr HYPHEN)) v <-> exists k, v = repeat HYPHEN k.
Proof.
  split.
  - intros H. remember (Star (Chr HYPHEN)) as r eqn:Hr.
    induction H as [| | | | | |a u v Mu _ Mv IHv| |]; try discriminate.
    + exists 0. reflexivity.
    + inversion Hr; subst a. inversion Mu; subst.
      destruct (IHv eq_refl) as (k & ->). exists (S k). reflexivity.
  - intros (k & ->). induction k as [|k IH]; simpl.
    + constructor.
    + change (HYPHEN :: repeat HYPHEN k) with ([HYPHEN] ++ repeat HYPHEN k).
      constructor; [constructor | assumption].
Qed.

Lemma matches_group g :
  matches (Seq (Plus (Chr HYPHEN)) (Chr PIPE)) g <-> exists k, g = hyphen_group k.
Proof.
  split.
  - intros H. inversion H as [| |a b u v Hu Hv| | | | | |]; subst.
    inversion Hv; subst.
    inversion Hu as [| |a b u1 u2 H1 H2| | | | | |]; subst.
    inversion H1; subst. apply matches_star_hyphen in H2 as (k & ->).
    exists k. reflexivity.
  - intros (k & ->). unfold hyphen_group, Plus. constructor; [|constructor].
    change (repeat HYPHEN (S k)) with ([HYPHEN] ++ repeat HYPHEN k).
    constructor; [constructor|]. apply matches_star_hyphen. eauto.
Qed.

Lemma matches_star_groups v :
  matches (Star (Seq (Plus (Chr HYPHEN)) (Chr PIPE))) v <->
  exists ks, v = concat (map hyphen_group ks).
Proof.
  split.
  - intros H. remember (Star (Seq (Plus (Chr HYPHEN)) (Chr PIPE))) as r eqn:Hr.
    induction H as [| | | | | |a u v Mu _ Mv IHv| |]; try discriminate.
    + exists []. reflexivity.
    + inversion Hr; subst a. apply matches_group in Mu as (k & ->).
      destruct (IHv eq_refl) as (ks & ->). exists (k :: ks). reflexivity.
  - intros (ks & ->). induction ks as [|k ks IH]; cbn [map concat].
    + constructor.
    + apply MStarS; [|assumption]. apply matches_group. eauto.
Qed.

Lemma matches_delimiter d :
  matches delimiter d <-> exists ks, ks <> [] /\ d = delimiter_row ks.
Proof.
  split.
  - intros H. inversion H as [| |a b u v Hu Hv| | | | | |]; subst.
    inversion Hu; subst.
    inversion Hv as [| |a b g s Hg Hs| | | | | |]; subst.
    apply matches_group in Hg as (k & ->).
    apply matches_star_groups in Hs as (ks & ->).
    exists (k :: ks). split; [discriminate | reflexivity].
  - intros (ks & Hks & ->). destruct ks as [|k ks]; [contradiction|].
    unfold delimiter, delimiter_row, Plus.
    change (PIPE :: concat (map hyphen_group (k :: ks)))
      with ([PIPE] ++ hyphen_group k ++ concat (map hyphen_group ks)).
    constructor; [constructor|]. constructor.
    + apply matches_group. eauto.
    + apply matches_star_groups. eauto.
Qed.

Lemma matches_star_rows v :
  matches (Star (Seq row (Opt newline))) v <->
  exists rows,
    Forall (fun rn => plain (fst rn) = true /\ opt_newline (snd rn)) rows /\
    v = concat (map row_line rows).
Proof.
  split.
  - intros H. remember (Star (Seq row (Opt newline))) as r eqn:Hr.
    induction H as [| | | | | |a u v Mu _ Mv IHv| |]; try discriminate.
    + exists []. split; [constructor | reflexivity].
    + inversion Hr; subst a.
      inversion Mu as [| |a b r0 n Hr0 Hn| | | | | |]; subst.
      apply matches_row in Hr0 as (h & -> & Hh).
      apply matches_opt_newline in Hn.
      destruct (IHv eq_refl) as (rows & Hrows & ->).
      exists ((h, n) :: rows). split; [|reflexivity].
      constructor; [split; assumption | assumption].
  - intros (rows & Hrows & ->).
    induction Hrows as [|[h n] rows [Hh Hn] _ IH]; cbn [map concat].
    + constructor.
    + apply MStarS; [|assumption]. unfold row_line. cbn [fst snd]. constructor.
      * apply matches_row. eauto.
      * apply matches_opt_newline. assumption.
Qed.

(** The words of [tableRegex] are the texts [table_text] spells out. *)
Lemma matches_table_text w : matches tableRegex w <-> table_text w.
Proof.
  split.
  - intros H. inversion H as [| |a b w1 t1 H1 Ht1| | | | | |]; subst.
    inversion Ht1 as [| |a b w2 t2 H2 Ht2| | | | | |]; subst.
    inversion Ht2 as [| |a b w3 t3 H3 Ht3| | | | | |]; subst.
    inversion Ht3 as [| |a b w4 w5 H4 H5| | | | | |]; subst.
    apply matches_row in H1 as (h & -> & Hh).
    apply matches_opt_newline in H2, H4.
    apply matches_delimiter in H3 as (ks & Hks & ->).
    apply matches_star_rows in H5 as (rows & Hrows & ->).
    constructor; assumption.
  - intros [header n1 ks n2 rows Hh Hn1 Hks Hn2 Hrows].
    unfold tableRegex, body. constructor.
    + apply matches_row. eauto.
    + constructor; [apply matches_opt_newline; assumption|].
      constructor; [apply matches_delimiter; eauto|].
      constructor; [apply matches_opt_newline; assumption|].
      apply matches_star_rows. eauto.
Qed.

End TableText.

Section Begins.

Lemma begins_row_iff x : begins row x <-> begins_row x.
Proof.
  split.
  - intros (w & tl & -> & M). apply matches_row in M as (h & -> & Hh).
    exists h, tl. auto.
  - intros (h & tl & -> & Hh). exists (cell_row h), tl.
    split; [reflexivity|]. apply matches_row. eauto.
Qed.

Lemma begins_table_iff x : begins tableRegex x <-> begins_table x.
Proof.
  split.
  - intros (w & tl & -> & M). exists w, tl. split; [reflexivity|].
    apply matches_table_text. assumption.
  - intros (w & tl & -> & M). exists w, tl. split; [reflexivity|].
    apply matches_table_text. assumption.
Qed.

End Begins.

(** * The table the pattern prefers *)

Section Preferred.

Local Abbreviation rowline := (Seq row (Opt newline)).
Local Abbreviation group := (Seq (Plus (Chr HYPHEN)) (Chr PIPE)).
Local Abbreviation after_header := (Seq (Opt newline) (Seq delimiter body)).

Lemma m_dot_cons {A} ch y (c : cont A) :
  m Dot (ch :: y) c = if line_terminator ch then None else c y.
Proof. reflexivity. Qed.

Lemma m_dot_nil {A} (c : cont A) : m Dot [] c = None.
Proof. reflexivity. Qed.

Lemma m_chr_nil {A} ch (c : cont A) : m (Chr ch) [] c = None.
Proof. reflexivity. Qed.

Lemma m_chr_inv {A} ch x (c : cont A) z :
  m (Chr ch) x c = Some z -> exists y, x = ch :: y /\ c y = Some z.
Proof.
  destruct x as [|ch' y]; [discriminate|]. simpl.
  destruct (N.eqb_spec ch ch') as [->|NE]; [|discriminate].
  intros H. exists y. split; [reflexivity | assumption].
Qed.

(** The greedy [.*] in front of a pipe: the pipe is the last one of the
    line that the continuation accepts. *)
Lemma star_dot_pipe_choice {A} (c : cont A) : forall x z,
  m (Star Dot) x (fun y => m (Chr PIPE) y c) = Some z ->
  exists h y,
    x = h ++ PIPE :: y /\ plain h = true /\ c y = Some z /\
    forall h' y', plain h' = true -> x = h' ++ PIPE :: y' ->
      length h < length h' -> c y' = None.
Proof.
  induction x as [|ch t IH]; intros z H; rewrite m_star_unfold in H.
  - rewrite m_dot_nil, m_chr_nil in H. discriminate.
  - rewrite m_dot_cons in H. destruct (line_terminator ch) eqn:Hch.
    + rewrite m_chr_neq in H; [discriminate|].
      intros E. subst ch. discriminate.
    + rewrite length_tail_neq in H.
      remember (m (Star Dot) t (fun y => m (Chr PIPE) y c)) as r eqn:E in H.
      symmetry in E. destruct r as [z'|].
      * inversion H; subst z'. destruct (IH z E) as (h & y & -> & Hh & Hc & Hp).
        exists (ch :: h), y. split; [reflexivity|]. split.
        { simpl. rewrite Hch. exact Hh. }
        split; [assumption|]. intros h' y' Hh' E' L.
        destruct h' as [|ch' h']; [simpl in L; lia|].
        simpl in E'. inversion E' as [[E1 E2]]. simpl in Hh'.
        apply andb_true_iff in Hh' as [_ Hh'].
        apply (Hp h' y' Hh' E2). simpl in L. lia.
      * apply m_chr_inv in H as (y & Ey & Hc). inversion Ey; subst ch y.
        exists [], t. split; [reflexivity|]. split; [reflexivity|].
        split; [assumption|]. intros h' y' Hh' E' L.
        destruct h' as [|ch' h']; [simpl in L; lia|].
        simpl in E'. inversion E' as [[E1 E2]]. simpl in Hh'.
        apply andb_true_iff in Hh' as [_ Hh'].
        destruct (c y') as [b|] eqn:Hb; [exfalso|reflexivity].
        assert (M : matches (Seq (Star Dot) (Chr PIPE)) (h' ++ [PIPE])).
        { constructor; [apply matches_star_dot; assumption | constructor]. }
        destruct (@m_complete A _ _ M y' c b Hb) as (z' & Hz').
        rewrite m_seq, <- app_assoc in Hz'.
        change ([PIPE] ++ y') with (PIPE :: y') in Hz'.
        rewrite <- E2 in Hz'. congruence.
Qed.

(** The row [|.*|] in front of a continuation: the header it takes is the
    longest one behind which the continuation succeeds. *)
Lemma row_choice {A} (c : cont A) x z :
  m row x c = Some z ->
  exists h y,
    x = cell_row h ++ y /\ plain h = true /\ c y = Some z /\
    forall h' y', plain h' = true -> x = cell_row h' ++ y' ->
      length h < length h' -> c y' = None.
Proof.
  unfold row. rewrite m_seq. intros H.
  apply m_chr_inv in H as (x' & -> & H). rewrite m_seq in H.
  apply star_dot_pipe_choice in H as (h & y & -> & Hh & Hc & Hp).
  exists h, y. unfold cell_row. split.
  { simpl. rewrite <- app_assoc. reflexivity. }
  split; [assumption|]. split; [assumption|].
  intros h' y' Hh' E L. simpl in E. rewrite <- app_assoc in E.
  inversion E as [E']. apply (Hp h' y' Hh' E' L).
Qed.

(** A pattern in front of a continuation that accepts the state the
    pattern reaches first. *)
Lemma m_first_eq {A} r x z (c : cont A) :
  m r x (fun y => Some y) = Some z -> c z <> None -> m r x c = c z.
Proof.
  intros H Hc. destruct (c z) as [b|] eqn:E; [|contradiction].
  apply (m_first r x c H E).
Qed.

Lemma m_opt_unfold {A} a x (c : cont A) :
  m (Opt a) x c =
  match m a x (fun y => if length y =? length x then None else c y) with
  | Some z => Some z
  | None => c x
  end.
Proof. reflexivity. Qed.

Lemma m_alt_unfold {A} a b x (c : cont A) :
  m (Alt a b) x c =
  match m a x c with
  | Some z => Some z
  | None => m b x c
  end.
Proof. reflexivity. Qed.

Lemma m_result_le r x z :
  m r x (fun y => Some y) = Some z -> length z <= length x.
Proof.
  intros H. apply m_sound in H as (w & y & -> & _ & E).
  inversion E; subst. rewrite length_app. lia.
Qed.

Lemma app_same_head {X} (a b c d : list X) :
  a ++ b = c ++ d -> length a = length c -> a = c /\ b = d.
Proof.
  revert c. induction a as [|x a IH]; intros [|y c] E L; simpl in *;
    try discriminate; [auto|].
  inversion E as [[E1 E2]]. destruct (IH c E2) as [-> ->]; [lia | auto].
Qed.

Lemma plain_app a b : plain (a ++ b) = plain a && plain b.
Proof. apply forallb_app. Qed.

(** ** Newlines *)

Lemma matches_newline n :
  matches newline n <-> n = [LF] \/ n = [CR; LF] \/ n = [CR].
Proof.
  split.
  - intros H. pose proof (lf_analysis H) as (Hnil & _).
    apply MOpt1, matches_opt_newline in H.
    destruct H as [-> | H]; [|exact H].
    specialize (Hnil eq_refl). discriminate.
  - intros H.
    assert (O : opt_newline n) by (right; exact H).
    apply matches_opt_newline in O.
    inversion O as [| | | | | | |a E|a u Hu]; subst; [|assumption].
    destruct H as [H | [H | H]]; discriminate.
Qed.

(** The newline a greedy match takes: a carriage return with the line
    feed behind it, if there is one. *)
Lemma newline_greedy x z :
  m newline x (fun y => Some y) = Some z ->
  x = LF :: z \/ x = CR :: LF :: z \/ (x = CR :: z /\ forall t, z <> LF :: t).
Proof.
  unfold newline. rewrite m_alt_unfold, m_seq, m_opt_unfold. intros H.
  destruct x as [|ch x]; [discriminate|].
  destruct (N.eq_dec ch CR) as [->|NCR].
  - rewrite m_chr_eq, length_tail_neq in H.
    destruct x as [|ch2 x].
    + rewrite m_chr_nil, (@m_chr_neq _ LF CR) in H by discriminate.
      rewrite m_chr_eq in H. inversion H.
      right. right. split; [reflexivity|]. intros t. discriminate.
    + destruct (N.eq_dec ch2 LF) as [->|NLF2].
      * rewrite m_chr_eq in H. inversion H. right. left. reflexivity.
      * rewrite (@m_chr_neq _ LF ch2) in H by congruence.
        rewrite (@m_chr_neq _ LF CR) in H by discriminate.
        rewrite m_chr_eq in H. inversion H.
        right. right. split; [reflexivity|]. intros t E. inversion E. congruence.
  - rewrite (@m_chr_neq _ CR ch) in H by congruence.
    destruct (N.eq_dec ch LF) as [->|NLF].
    + rewrite m_chr_eq in H. inversion H. left. reflexivity.
    + rewrite (@m_chr_neq _ LF ch) in H by congruence.
      rewrite (@m_chr_neq _ CR ch) in H by congruence. discriminate.
Qed.

Lemma newline_none x n tl :
  m newline x (fun y => Some y) = None -> x = n ++ tl -> ~ matches newline n.
Proof.
  intros H -> M.
  destruct (@m_complete _ _ _ M tl (fun y => Some y) tl eq_refl) as (z & Hz).
  congruence.
Qed.

(** ** The rows behind the delimiter *)

Lemma matches_body b :
  matches body b <->
  exists n v, b = n ++ v /\ opt_newline n /\ matches (Star rowline) v.
Proof.
  split.
  - intros H. inversion H as [| |a0 b0 n v Hn Hv| | | | | |]; subst.
    apply matches_opt_newline in Hn. eauto.
  - intros (n & v & -> & Hn & Hv). unfold body. constructor; [|assumption].
    apply matches_opt_newline. assumption.
Qed.

Lemma rows_cons v :
  matches (Star rowline) v ->
  v = [] \/
  exists g n v', v = cell_row g ++ n ++ v' /\ plain g = true /\
                 opt_newline n /\ matches (Star rowline) v'.
Proof.
  intros H. apply matches_star_rows in H as (rows & Hrows & ->).
  destruct Hrows as [|[g n] rows [Hg Hn] Hrows]; [left; reflexivity|].
  right. exists g, n, (concat (map row_line rows)).
  split; [|split; [assumption|split; [assumption|]]].
  - cbn [map concat]. unfold row_line. cbn [fst snd].
    rewrite <- app_assoc. reflexivity.
  - apply matches_star_rows. eauto.
Qed.

Lemma rows_total y : m (Star rowline) y (fun y => Some y) <> None.
Proof. apply star_total. Qed.

(** [body] behind a state: the newline that is there is taken, and the
    rows follow. *)
Lemma body_eval y :
  m body y (fun y => Some y) =
  match m newline y (fun y => Some y) with
  | Some y4 => m (Star rowline) y4 (fun y => Some y)
  | None => m (Star rowline) y (fun y => Some y)
  end.
Proof.
  unfold body. rewrite m_seq, m_opt_unfold.
  destruct (m newline y (fun y => Some y)) as [y4|] eqn:R.
  - assert (L : length y4 < length y).
    { apply m_sound in R as (n & y' & -> & M & E). inversion E; subst.
      apply matches_newline in M. rewrite length_app.
      destruct M as [-> | [-> | ->]]; simpl; lia. }
    rewrite (m_first_eq newline y _ R).
    + replace (length y4 =? length y) with false
        by (symmetry; apply Nat.eqb_neq; lia).
      destruct (m (Star rowline) y4 (fun y => Some y)) eqn:E; [reflexivity|].
      exfalso. apply (@rows_total y4 E).
    + replace (length y4 =? length y) with false
        by (symmetry; apply Nat.eqb_neq; lia).
      apply rows_total.
  - rewrite (m_first_none newline y _ R). reflexivity.
Qed.

Lemma body_total y : m body y (fun y => Some y) <> None.
Proof.
  rewrite body_eval. destruct (m newline y (fun y => Some y)); apply rows_total.
Qed.

(** ** The greedy rows reach as far as any rows do *)

Lemma rows_begin_not v ch t tl :
  matches (Star rowline) v -> ch <> PIPE -> ch :: t = v ++ tl -> v = [].
Proof.
  intros Mv Hch E. destruct (rows_cons Mv) as [-> | (g & n & v' & -> & _)].
  - reflexivity.
  - unfold cell_row in E. simpl in E. inversion E. contradiction.
Qed.

(** [body] reaches as far as any of its texts, if the rows do from every
    state that is not longer. *)
Lemma body_longest (y z : jsstring) :
  (forall y' z', length y' <= length y ->
     m (Star rowline) y' (fun y => Some y) = Some z' ->
     forall v tl, y' = v ++ tl -> matches (Star rowline) v ->
     length z' <= length tl) ->
  m body y (fun y => Some y) = Some z ->
  forall b tl, y = b ++ tl -> matches body b -> length z <= length tl.
Proof.
  intros HS H b tl E M. apply matches_body in M as (n & v & -> & Hn & Mv).
  rewrite body_eval in H. rewrite <- app_assoc in E.
  destruct (m newline y (fun y => Some y)) as [y4|] eqn:R.
  - pose proof (m_result_le _ _ H) as Lz.
    apply newline_greedy in R as [R | [R | [R Hnot]]]; subst y;
      destruct Hn as [-> | [-> | [-> | ->]]]; simpl in E.
    + assert (Ev : v = [])
        by (apply (@rows_begin_not v LF y4 tl Mv); [discriminate | exact E]).
      subst v.
      simpl in E. subst tl. simpl. lia.
    + inversion E as [E']. apply (fun L => HS y4 z L H v tl E' Mv); simpl; lia.
    + inversion E.
    + inversion E.
    + assert (Ev : v = [])
        by (apply (@rows_begin_not v CR (LF :: y4) tl Mv); [discriminate | exact E]).
      subst v.
      simpl in E. subst tl. simpl. lia.
    + inversion E.
    + inversion E as [E']. apply (fun L => HS y4 z L H v tl E' Mv); simpl; lia.
    + inversion E as [E'].
      assert (Ev : v = [])
        by (apply (@rows_begin_not v LF y4 tl Mv); [discriminate | exact E']).
      subst v.
      simpl in E'. subst tl. simpl. lia.
    + assert (Ev : v = [])
        by (apply (@rows_begin_not v CR y4 tl Mv); [discriminate | exact E]).
      subst v.
      simpl in E. subst tl. simpl. lia.
    + inversion E.
    + inversion E as [E']. exfalso. apply (Hnot _ E').
    + inversion E as [E']. apply (fun L => HS y4 z L H v tl E' Mv); simpl; lia.
  - destruct Hn as [-> | Hn].
    + simpl in E. apply (fun L => HS y z L H v tl E Mv); lia.
    + exfalso. apply (@newline_none y n (v ++ tl) R E).
      apply matches_newline. exact Hn.
Qed.

Lemma app_pivot_cases {X} (e : X) a b c d :
  a ++ e :: b = c ++ e :: d ->
  (exists l, a = c ++ e :: l /\ d = l ++ e :: b) \/
  (a = c /\ b = d) \/
  (exists l, c = a ++ e :: l /\ b = l ++ e :: d).
Proof.
  revert c. induction a as [|x a IH]; intros [|y c] E; simpl in E.
  - inversion E. right. left. auto.
  - inversion E; subst. right. right. exists c. auto.
  - inversion E; subst. left. exists a. auto.
  - inversion E as [[E1 E2]]. subst y.
    destruct (IH c E2) as [(l & -> & ->) | [(-> & ->) | (l & -> & ->)]].
    + left. exists l. auto.
    + right. left. auto.
    + right. right. exists l. auto.
Qed.

Lemma plain_not_newline g yr n rest :
  plain g = true -> opt_newline n -> n ++ rest = g ++ PIPE :: yr -> n = [].
Proof.
  intros Hg Hn E.
  destruct Hn as [-> | [-> | [-> | ->]]]; [reflexivity| | |];
    destruct g as [|ch g]; simpl in E; inversion E; subst;
    simpl in Hg; discriminate.
Qed.

(** Rows that begin inside the line of a greedy row: they end where the
    greedy row ends, or before. *)
Lemma line_longest (yr z : jsstring) :
  (forall b tl, yr = b ++ tl -> matches body b -> length z <= length tl) ->
  (forall g t, plain g = true -> yr <> g ++ PIPE :: t) ->
  forall n pre v tl, length pre < n -> plain pre = true ->
    pre ++ PIPE :: yr = v ++ tl -> matches (Star rowline) v ->
    length z <= length tl.
Proof.
  intros Hbody Hlong. induction n as [|n IH]; intros pre v tl Ln Hpre E Mv.
  - lia.
  - destruct (rows_cons Mv) as [-> | (g & nl & v' & -> & Hg & Hnl & Mv')].
    + simpl in E. subst tl.
      assert (L : length z <= length yr).
      { apply (Hbody [] yr eq_refl). apply matches_body.
        exists [], []. split; [reflexivity|]. split; [left; reflexivity | constructor]. }
      rewrite length_app. simpl. lia.
    + unfold cell_row in E. simpl in E. rewrite <- !app_assoc in E. simpl in E.
      destruct pre as [|ch pre].
      * simpl in E. inversion E as [E']. exfalso. apply (Hlong g _ Hg E').
      * simpl in E. inversion E as [[E1 E2]]. simpl in Hpre.
        apply andb_true_iff in Hpre as [_ Hpre].
        apply app_pivot_cases in E2
          as [(l & -> & E3) | [(-> & E3) | (l & -> & E3)]].
        -- rewrite plain_app in Hpre. apply andb_true_iff in Hpre as [_ Hl].
           simpl in Hl. 
           pose proof (@plain_not_newline l yr nl (v' ++ tl) Hl Hnl E3) as ->.
           simpl in E3. symmetry in E3.
           apply (IH l v' tl); [|exact Hl | exact E3 | exact Mv'].
           simpl in Ln. rewrite length_app in Ln. simpl in Ln. lia.
        -- rewrite app_assoc in E3. apply (Hbody (nl ++ v') tl E3).
           apply matches_body. eauto.
        -- rewrite plain_app in Hg. apply andb_true_iff in Hg as [_ Hl].
           simpl in Hl. exfalso. apply (Hlong l _ Hl E3).
Qed.

(** The greedy rows reach as far as any rows that begin at the same
    state. *)
Lemma rows_longest : forall n y z, length y < n ->
  m (Star rowline) y (fun y => Some y) = Some z ->
  forall v tl, y = v ++ tl -> matches (Star rowline) v ->
  length z <= length tl.
Proof.
  induction n as [|n IH]; intros y z Ln H v tl E Mv; [lia|].
  rewrite m_star_unfold, m_seq in H.
  destruct (m row y (fun y => Some y)) as [yr|] eqn:R.
  - destruct (row_choice _ _ R) as (h & y1 & Ey & Hh & Ey1 & Hp).
    inversion Ey1; subst y1.
    assert (Ly : length yr < length y).
    { rewrite Ey, length_app. unfold cell_row. simpl. lia. }
    assert (Ec : m (Opt newline) yr
                   (fun y' => if length y' =? length y then None
                              else m (Star rowline) y' (fun y => Some y)) =
                 m body yr (fun y => Some y)).
    { unfold body. rewrite m_seq. apply m_ext. intros y0 L0.
      replace (length y0 =? length y) with false
        by (symmetry; apply Nat.eqb_neq; lia).
      reflexivity. }
    rewrite (m_first_eq row y _ R) in H by (rewrite Ec; apply body_total).
    rewrite Ec in H.
    destruct (m body yr (fun y => Some y)) as [zb|] eqn:B;
      [|exfalso; apply (@body_total yr B)].
    inversion H; subst zb.
    assert (Hbody : forall b tl, yr = b ++ tl -> matches body b ->
                    length z <= length tl).
    { refine (@body_longest yr z _ B). intros y' z' L' H' v0 tl0 E0 M0.
      apply (fun L => IH y' z' L H' v0 tl0 E0 M0); lia. }
    assert (Hlong : forall g t, plain g = true -> yr <> g ++ PIPE :: t).
    { intros g t Hg Eg.
      assert (Hx : plain (h ++ PIPE :: g) = true).
      { rewrite plain_app, Hh. simpl. exact Hg. }
      assert (Ex : y = cell_row (h ++ PIPE :: g) ++ t).
      { rewrite Ey, Eg. unfold cell_row. simpl. rewrite <- !app_assoc.
        reflexivity. }
      assert (Lx : length h < length (h ++ PIPE :: g)).
      { rewrite length_app. simpl. lia. }
      specialize (Hp _ _ Hx Ex Lx). discriminate. }
    apply (@line_longest yr z Hbody Hlong (S (length (PIPE :: h)))
             (PIPE :: h) v tl); [lia | simpl; exact Hh | | exact Mv].
    rewrite <- E, Ey. unfold cell_row. simpl. rewrite <- app_assoc. reflexivity.
  - rewrite (m_first_none row y _ R) in H. inversion H; subst z.
    destruct (rows_cons Mv) as [-> | (g & nl & v' & -> & Hg & Hnl & Mv')].
    + simpl in E. subst. lia.
    + exfalso. rewrite <- app_assoc in E. subst y.
      assert (M : matches row (cell_row g)) by (apply matches_row; eauto).
      destruct (@m_complete _ _ _ M ((nl ++ v') ++ tl) (fun y => Some y) _ eq_refl)
        as (z' & Hz').
      congruence.
Qed.

Lemma body_reach (y z : jsstring) :
  m body y (fun y => Some y) = Some z ->
  forall b tl, y = b ++ tl -> matches body b -> length z <= length tl.
Proof.
  intros H. refine (@body_longest y z _ H). intros y' z' _ H' v tl E M.
  apply (@rows_longest (S (length y')) y' z' (Nat.lt_succ_diag_r _) H' v tl E M).
Qed.

(** ** The delimiter *)

Lemma hyphens_pipe_inj : forall n n' (a b : jsstring),
  repeat HYPHEN n ++ PIPE :: a = repeat HYPHEN n' ++ PIPE :: b ->
  n = n' /\ a = b.
Proof.
  induction n as [|n IH]; intros [|n'] a b E; simpl in E; inversion E as [E'].
  - auto.
  - destruct (IH n' a b E') as [-> ->]. auto.
Qed.

Lemma hyphen_group_inj k k' (a b : jsstring) :
  hyphen_group k ++ a = hyphen_group k' ++ b -> k = k' /\ a = b.
Proof.
  unfold hyphen_group. rewrite <- !app_assoc. intros E.
  apply hyphens_pipe_inj in E as [E ->]. inversion E. auto.
Qed.

Lemma groups_compare : forall ks ks' (a b : jsstring),
  concat (map hyphen_group ks) ++ a = concat (map hyphen_group ks') ++ b ->
  (exists ks2, ks' = ks ++ ks2 /\ a = concat (map hyphen_group ks2) ++ b) \/
  (exists ks2, ks = ks' ++ ks2 /\ b = concat (map hyphen_group ks2) ++ a).
Proof.
  induction ks as [|k ks IH]; intros ks' a b E.
  - left. exists ks'. auto.
  - destruct ks' as [|k' ks'].
    + right. exists (k :: ks). split; [reflexivity|]. symmetry. exact E.
    + cbn [map concat] in E. rewrite <- !app_assoc in E.
      apply hyphen_group_inj in E as [-> E].
      destruct (IH ks' a b E) as [(ks2 & -> & ->) | (ks2 & -> & ->)].
      * left. exists ks2. auto.
      * right. exists ks2. auto.
Qed.

(** The delimiter a greedy match takes: no run of hyphens closed by a
    pipe follows it. *)
Lemma delimiter_greedy y z :
  m delimiter y (fun y => Some y) = Some z ->
  exists ks, ks <> [] /\ y = delimiter_row ks ++ z /\
             forall k t, z <> hyphen_group k ++ t.
Proof.
  unfold delimiter, Plus. rewrite m_seq. intros H.
  apply m_chr_inv in H as (y1 & -> & H). rewrite m_seq in H.
  apply m_sound in H as (g & y2 & -> & Mg & H).
  pose proof (m_sound _ _ _ H) as (s & y3 & -> & Ms & E).
  inversion E; subst y3.
  apply matches_group in Mg as (k & ->).
  apply matches_star_groups in Ms as (ks & ->).
  exists (k :: ks). split; [discriminate|]. split.
  - unfold delimiter_row. cbn [map concat app]. rewrite <- app_assoc. reflexivity.
  - intros k' t ->.
    assert (Ha : forall w, matches group w -> w <> []).
    { intros w Mw. apply matches_group in Mw as (k0 & ->). discriminate. }
    pose proof (star_stops Ha _ H) as Hstop.
    assert (M : matches group (hyphen_group k')) by (apply matches_group; eauto).
    destruct (@m_complete _ _ _ M t (fun y => Some y) _ eq_refl) as (z' & Hz').
    congruence.
Qed.

Lemma matches_after_header u :
  matches after_header u <->
  exists n1 ks n2 rows,
    opt_newline n1 /\ ks <> [] /\ opt_newline n2 /\
    Forall (fun rn => plain (fst rn) = true /\ opt_newline (snd rn)) rows /\
    u = n1 ++ delimiter_row ks ++ n2 ++ concat (map row_line rows).
Proof.
  split.
  - intros H. inversion H as [| |a b w2 t2 H2 Ht2| | | | | |]; subst.
    inversion Ht2 as [| |a b w3 t3 H3 Ht3| | | | | |]; subst.
    inversion Ht3 as [| |a b w4 w5 H4 H5| | | | | |]; subst.
    apply matches_opt_newline in H2, H4.
    apply matches_delimiter in H3 as (ks & Hks & ->).
    apply matches_star_rows in H5 as (rows & Hrows & ->).
    exists w2, ks, w4, rows. auto.
  - intros (n1 & ks & n2 & rows & Hn1 & Hks & Hn2 & Hrows & ->).
    constructor; [apply matches_opt_newline; assumption|].
    constructor; [apply matches_delimiter; eauto|].
    unfold body. constructor; [apply matches_opt_newline; assumption|].
    apply matches_star_rows. eauto.
Qed.

Lemma newline_before_pipe n n' (a b : jsstring) :
  opt_newline n -> opt_newline n' -> n ++ PIPE :: a = n' ++ PIPE :: b ->
  n = n' /\ a = b.
Proof.
  intros [-> | [-> | [-> | ->]]] [-> | [-> | [-> | ->]]] E;
    simpl in E; inversion E; auto.
Qed.

Lemma body_begin b ch t (tl : jsstring) :
  matches body b -> b ++ tl = ch :: t -> ch <> LF -> ch <> CR -> ch <> PIPE ->
  b = [].
Proof.
  intros M E H1 H2 H3. apply matches_body in M as (n & v & -> & Hn & Mv).
  destruct Hn as [-> | [-> | [-> | ->]]]; simpl in E;
    try (inversion E; congruence).
  destruct (rows_cons Mv) as [-> | (g & nl & v' & -> & _)]; [reflexivity|].
  unfold cell_row in E. simpl in E. inversion E. congruence.
Qed.

(** What follows a header row in a match reaches as far as any text of
    that part of the pattern. *)
Lemma after_header_longest (y z : jsstring) :
  m after_header y (fun y => Some y) = Some z ->
  forall u tl, y = u ++ tl -> matches after_header u -> length z <= length tl.
Proof.
  rewrite m_seq. intros H u tl E M.
  apply m_sound in H as (n1 & y2 & -> & Mn1 & H). rewrite m_seq in H.
  apply matches_opt_newline in Mn1.
  destruct (m delimiter y2 (fun y => Some y)) as [z3|] eqn:D;
    [|rewrite (m_first_none delimiter y2 _ D) in H; discriminate].
  rewrite (m_first_eq delimiter y2 _ D) in H by apply body_total.
  pose proof (m_result_le _ _ H) as Lz.
  apply delimiter_greedy in D as (ks & Hks & -> & Hstop).
  apply matches_after_header in M
    as (n1' & ks' & n2' & rows' & Hn1' & Hks' & Hn2' & Hrows' & ->).
  assert (Mb : matches body (n2' ++ concat (map row_line rows'))).
  { apply matches_body. exists n2', (concat (map row_line rows')).
    split; [reflexivity|]. split; [assumption|].
    apply matches_star_rows. eauto. }
  revert E Mb. generalize (n2' ++ concat (map row_line rows')). intros b E Mb.
  unfold delimiter_row in E. rewrite <- !app_assoc in E. simpl in E.
  apply newline_before_pipe in E as [<- E]; [|assumption|assumption].
  apply groups_compare in E as [(ks2 & -> & E) | (ks2 & -> & E)].
  - destruct ks2 as [|k2 ks2].
    + simpl in E. apply (@body_reach z3 z H b tl E Mb).
    + exfalso. cbn [map concat] in E. rewrite <- app_assoc in E.
      apply (Hstop _ _ E).
  - destruct ks2 as [|k2 ks2].
    + simpl in E. symmetry in E. apply (@body_reach z3 z H b tl E Mb).
    + cbn [map concat] in E. unfold hyphen_group at 1 in E. simpl in E.
      assert (Eb : b = []).
      { apply (@body_begin b HYPHEN _ tl Mb E); discriminate. }
      subst b. simpl in E. subst tl. simpl. rewrite !length_app. simpl. lia.
Qed.

(** ** The match of [tableRegex] is the preferred table *)

Lemma table_text_of_iff header w :
  table_text_of header w <->
  plain header = true /\ exists u, w = cell_row header ++ u /\ matches after_header u.
Proof.
  split.
  - intros [n1 ks n2 rows Hh Hn1 Hks Hn2 Hrows]. split; [assumption|].
    eexists. split; [reflexivity|]. apply matches_after_header.
    exists n1, ks, n2, rows. auto.
  - intros (Hh & u & -> & M).
    apply matches_after_header in M
      as (n1 & ks & n2 & rows & Hn1 & Hks & Hn2 & Hrows & ->).
    constructor; assumption.
Qed.

Lemma table_text_of_text header w : table_text_of header w -> table_text w.
Proof. intros [n1 ks n2 rows Hh Hn1 Hks Hn2 Hrows]. constructor; assumption. Qed.

Lemma table_at_preferred x rest :
  table_at x = Some rest -> exists w, x = w ++ rest /\ preferred_table x w.
Proof.
  unfold table_at, tableRegex. rewrite m_seq. intros H.
  apply row_choice in H as (h & y1 & -> & Hh & H & Hp).
  pose proof (m_sound _ _ _ H) as (u & y & -> & Mu & E). inversion E; subst y.
  exists (cell_row h ++ u). split; [apply app_assoc|].
  exists h, rest. split; [apply app_assoc|]. split.
  { apply table_text_of_iff. eauto. }
  intros header' w' rest' E' T'.
  apply table_text_of_iff in T' as (Hh' & u' & -> & Mu').
  rewrite <- app_assoc in E'. split.
  - destruct (le_lt_dec (length header') (length h)) as [L|L]; [exact L|].
    exfalso. specialize (Hp header' (u' ++ rest') Hh' E' L).
    destruct (@m_complete _ _ _ Mu' rest' (fun y => Some y) _ eq_refl)
      as (z' & Hz').
    congruence.
  - intros L. unfold cell_row in E'. simpl in E'. inversion E' as [E1].
    rewrite <- !app_assoc in E1.
    apply app_same_head in E1 as [E1 E2]; [|symmetry; exact L].
    simpl in E2. inversion E2 as [E3].
    pose proof (@after_header_longest _ _ H u' rest' E3 Mu') as Lr.
    subst header'. apply (f_equal (@length code_unit)) in E3.
    rewrite !length_app in E3. rewrite !length_app. lia.
Qed.

Lemma preferred_unique x w1 w2 :
  preferred_table x w1 -> preferred_table x w2 -> w1 = w2.
Proof.
  intros (h1 & r1 & E1 & T1 & P1) (h2 & r2 & E2 & T2 & P2).
  destruct (P1 h2 w2 r2 E2 T2) as [La Lb].
  destruct (P2 h1 w1 r1 E1 T1) as [Lc Ld].
  assert (L : length w1 = length w2) by (specialize (Lb ltac:(lia)); specialize (Ld ltac:(lia)); lia).
  rewrite E1 in E2. apply app_same_tail in E2 as [E _]; [exact E|].
  apply (f_equal (@length code_unit)) in E2. rewrite !length_app in E2. lia.
Qed.

Lemma preferred_table_at x w rest :
  preferred_table x w -> x = w ++ rest -> table_at x = Some rest.
Proof.
  intros P E. pose proof P as (h & r & E1 & T1 & _).
  apply table_text_of_text, matches_table_text in T1.
  destruct (table_at_complete r T1) as (z & Hz). rewrite <- E1 in Hz.
  destruct (table_at_preferred _ Hz) as (w' & E' & P').
  pose proof (preferred_unique P' P) as ->.
  rewrite E in E'. apply app_inv_head in E'. subst z. exact Hz.
Qed.

End Preferred.

(** * The rule of the segmentation *)

Section Rule.

Lemma table_at_none_iff z : table_at z = None <-> ~ begins_table z.
Proof.
  split.
  - intros H (w & tl & -> & T). apply matches_table_text in T.
    destruct (table_at_complete tl T) as (y & Hy). congruence.
  - intros H. destruct (table_at z) as [y|] eqn:E; [|reflexivity].
    exfalso. apply H. destruct (table_at_sound _ E) as (w & -> & M).
    exists w, y. split; [reflexivity|]. apply matches_table_text. assumption.
Qed.

Lemma rule_nil o : segmentation_rule o [] [].
Proof.
  split; [reflexivity|]. intros before p after E.
  destruct before; discriminate.
Qed.

Lemma rule_cons o p l x :
  id p = part_id (type p) o ->
  (type p = table -> preferred_table (content p ++ x) (content p)) ->
  (type p = markdown ->
     content p <> [] /\
     (forall a b, content p = a ++ b -> b <> [] -> ~ begins_table (b ++ x)) /\
     (forall q l', l = q :: l' -> type q = table)) ->
  segmentation_rule (o + length (content p)) x l ->
  segmentation_rule o (content p ++ x) (p :: l).
Proof.
  intros Hid Ht Hm [Hc Hl]. split.
  - cbn [map concat]. rewrite Hc. reflexivity.
  - intros before p0 after E.
    apply split_cons_cases in E as [(-> & -> & ->) | (before' & -> & E)].
    + rewrite Hc. cbn [map concat length]. rewrite Nat.add_0_r. auto.
    + destruct (Hl before' p0 after E) as (Hid' & Ht' & Hm').
      split; [|auto]. rewrite Hid'. cbn [map concat]. rewrite length_app.
      rewrite Nat.add_assoc. reflexivity.
Qed.

Lemma rule_tail o p l x :
  segmentation_rule o x (p :: l) ->
  x = content p ++ concat (map content l) /\
  id p = part_id (type p) o /\
  (type p = table ->
     preferred_table (content p ++ concat (map content l)) (content p)) /\
  (type p = markdown ->
     content p <> [] /\
     (forall a b, content p = a ++ b -> b <> [] ->
        ~ begins_table (b ++ concat (map content l))) /\
     (forall q l', l = q :: l' -> type q = table)) /\
  segmentation_rule (o + length (content p)) (concat (map content l)) l.
Proof.
  intros [Hc Hl]. split; [symmetry; exact Hc|].
  destruct (Hl [] p l eq_refl) as (Hid & Ht & Hm).
  cbn [map concat length] in Hid. rewrite Nat.add_0_r in Hid.
  split; [exact Hid|]. split; [exact Ht|]. split; [exact Hm|].
  split; [reflexivity|]. intros before p0 after E.
  destruct (Hl (p :: before) p0 after) as (Hid' & Ht' & Hm').
  { rewrite E. reflexivity. }
  split; [|auto]. rewrite Hid'. cbn [map concat]. rewrite length_app.
  rewrite Nat.add_assoc. reflexivity.
Qed.

Lemma unmatched_no_table pre ctx :
  unmatched pre ctx <->
  forall a b, pre = a ++ b -> b <> [] -> ~ begins_table (b ++ ctx).
Proof.
  unfold unmatched. split; intros H a b E Hb.
  - apply table_at_none_iff. apply (H a b E Hb).
  - apply table_at_none_iff. apply (H a b E Hb).
Qed.

(** What [parseMarkdown] leaves follows the rule. *)
Lemma segmented_rule o x l : segmented o x l -> segmentation_rule o x l.
Proof.
  induction 1 as [o x U | o pre t rest l U H Hs IH].
  - destruct x as [|ch x]; [apply rule_nil|].
    cbn [prose_part].
    rewrite <- (app_nil_r (ch :: x)) at 1.
    apply (@rule_cons o (mkPart (md_id o) markdown (ch :: x)) [] []).
    + reflexivity.
    + discriminate.
    + intros _. split; [discriminate|]. split.
      * apply unmatched_no_table. exact U.
      * intros q l' E. discriminate.
    + apply rule_nil.
  - assert (R : segmentation_rule (o + length pre) (t ++ rest)
                  (mkPart (tbl_id (o + length pre)) table t :: l)).
    { apply (@rule_cons (o + length pre)
               (mkPart (tbl_id (o + length pre)) table t) l rest).
      - reflexivity.
      - intros _. cbn [content].
        destruct (table_at_preferred _ H) as (w & E & P).
        apply app_inv_tail in E. subst w. exact P.
      - discriminate.
      - exact IH. }
    destruct pre as [|ch pre].
    + cbn [prose_part app length] in R |- *. rewrite Nat.add_0_r in R |- *.
      exact R.
    + cbn [prose_part].
      apply (@rule_cons o (mkPart (md_id o) markdown (ch :: pre)) _ (t ++ rest)).
      * reflexivity.
      * discriminate.
      * intros _. split; [discriminate|]. split.
        -- apply unmatched_no_table. exact U.
        -- intros q l' E. inversion E. reflexivity.
      * exact R.
Qed.

Lemma segmented_table_head o x q l :
  segmented o x (q :: l) -> type q = table ->
  exists t rest,
    x = t ++ rest /\ q = mkPart (tbl_id o) table t /\
    table_at (t ++ rest) = Some rest /\ segmented (o + length t) rest l.
Proof.
  intros Hs Hq.
  inversion Hs as [o0 x0 U E0 Ex El | o0 pre t rest l0 U H Hs' E0 Ex El]; subst.
  - destruct x as [|ch x]; cbn [prose_part] in El; [discriminate|].
    inversion El; subst q. discriminate.
  - destruct pre as [|e pre]; cbn [prose_part app] in El.
    + inversion El; subst q l0. cbn [length] in Hs' |- *.
      rewrite Nat.add_0_r in Hs' |- *. exists t, rest. auto.
    + inversion El; subst q. discriminate.
Qed.

(** What follows the rule is what the scan leaves. *)
Lemma rule_segmented : forall l o x,
  segmentation_rule o x l -> segmented o x l.
Proof.
  induction l as [|p l IH]; intros o x R.
  - destruct R as [<- _]. apply (@seg_last o [] (unmatched_nil [])).
  - apply rule_tail in R as (-> & Hid & Ht & Hm & R).
    apply IH in R. destruct p as [i [|] c]; cbn [id type content] in *.
    + destruct (Hm eq_refl) as (Hc & Hno & Hnext). subst i.
      apply unmatched_no_table in Hno.
      destruct c as [|ch c]; [contradiction|].
      destruct l as [|q l'].
      * cbn [map concat] in *. rewrite app_nil_r.
        apply (@seg_last o (ch :: c) Hno).
      * specialize (Hnext q l' eq_refl).
        destruct (segmented_table_head R Hnext) as (t & rest & Ex & -> & H & Hs).
        rewrite Ex in Hno |- *.
        apply (@seg_match o (ch :: c) t rest l' Hno H Hs).
    + specialize (Ht eq_refl). subst i.
      pose proof (@preferred_table_at _ c (concat (map content l)) Ht eq_refl) as H.
      replace (o + length c) with (o + length (@nil code_unit) + length c) in R
        by (simpl; lia).
      pose proof (@seg_match o [] c (concat (map content l)) l
                    (unmatched_nil _) H R) as S1.
      cbn [prose_part app length] in S1. rewrite Nat.add_0_r in S1. exact S1.
Qed.

End Rule.

(** * The claims *)

(** C1. The texts of the parts [parseMarkdown] returns, put end to end
    in order and with nothing between them, are the document: the parts
    cut it without overlap, and no code unit is lost or doubled. *)
Theorem parseMarkdown_partition (D : jsstring) :
  exists parts, parseMarkdown D = Some parts /\ concat (map content parts) = D.
Proof.
  destruct (parseMarkdown_segmented D) as (parts & E & Hs).
  exists parts. split; [assumption|]. apply (segmented_concat Hs).
Qed.

(** C2, amended. The parts of [D] are exactly those of the rule
    [segmentation_rule]: their texts make up [D]; the id of a part tells
    its kind and the index it begins at; no text of the table pattern
    begins at any code unit of a prose part, no prose part is empty, and
    after a prose part comes a table part; a table part is the greedy
    match where it begins: of the texts of the pattern that begin there,
    it has the longest header row and is the longest with a header row of
    that length. The rule has one solution, and [parseMarkdown] returns
    it. *)
Theorem table_blocks_are_matches (D : jsstring) :
  exists parts, parseMarkdown D = Some parts /\
    segmentation_rule 0 D parts /\
    forall parts', segmentation_rule 0 D parts' -> parts' = parts.
Proof.
  destruct (parseMarkdown_segmented D) as (parts & E & Hs).
  exists parts. split; [assumption|]. split; [apply segmented_rule; assumption|].
  intros parts' R. apply rule_segmented in R.
  unfold parseMarkdown in E.
  rewrite (@parse_loop_segmented 0 _ _ R D (S (length D)) []) in E;
    [| reflexivity | lia | lia].
  inversion E. reflexivity.
Qed.

(** C2 as stated fails. A header row that holds one pipe, followed by a
    delimiter row of pipes and hyphens, is prose; and a row that holds a
    pipe, right after the delimiter row of a table, is left out of the
    table when it does not begin with a pipe: the run of lines that is
    captured is not the maximal one. *)
Lemma table_rule_counterexample :
  (spec_header_row (units "a|b") = true /\
   spec_delimiter_row (units "|-|") = true /\
   parseMarkdown (units "a|b" ++ [LF] ++ units "|-|") =
     Some [mkPart (md_id 0) markdown (units "a|b" ++ [LF] ++ units "|-|")]) /\
  (spec_lines tableThenLooseRow = [units "|a|"; units "|-|"; units "1|2"] /\
   spec_header_row (units "|a|") = true /\
   spec_delimiter_row (units "|-|") = true /\
   spec_header_row (units "1|2") = true /\
   parseMarkdown tableThenLooseRow =
     Some [mkPart (tbl_id 0) table (units "|a|" ++ [LF] ++ units "|-|" ++ [LF]);
           mkPart (md_id 8) markdown (units "1|2")]).
Proof. repeat split; vm_compute; reflexivity. Qed.

(** C3, amended. Segmenting Scenario A returns three parts in this order:
    prose "Hello" with its two line feeds, the table of three lines with
    the line feed that ends each of them, and prose made of one line feed
    and "Bye": the table took the first of the two line feeds before
    "Bye". *)
Theorem scenarioA_blocks :
  parseMarkdown scenarioA = Some scenarioA_parts /\
  map (fun p => (type p, content p)) scenarioA_parts =
    [(markdown, units "Hello" ++ [LF; LF]);
     (table, units "| a | b |" ++ [LF] ++ units "|---|---|" ++ [LF]
             ++ units "| 1 | 2 |" ++ [LF]);
     (markdown, [LF] ++ units "Bye")].
Proof. split; vm_compute; reflexivity. Qed.

(** C3 as stated fails: the third part does not begin with two line
    feeds. *)
Lemma scenarioA_blocks_counterexample :
  option_map (map (fun p => (type p, content p))) (parseMarkdown scenarioA) <>
  Some [(markdown, units "Hello" ++ [LF; LF]);
        (table, units "| a | b |" ++ [LF] ++ units "|---|---|" ++ [LF]
                ++ units "| 1 | 2 |" ++ [LF]);
        (markdown, [LF; LF] ++ units "Bye")].
Proof. vm_compute. discriminate. Qed.

(** C4, amended. For two table regions written line by line and
    separated by one blank line, segmentation returns three parts: the
    first region with the line feed that ends its last row, a prose part
    that holds the line feed of the blank line, and the second region. The
    gap between the two matches is one code unit long, so it is pushed. *)
Theorem two_tables_blank_line (T1 T2 : jsstring) :
  table_region T1 -> table_region T2 ->
  parseMarkdown (T1 ++ [LF; LF] ++ T2) =
    Some [mkPart (tbl_id 0) table (T1 ++ [LF]);
          mkPart (md_id (length T1 + 1)) markdown [LF];
          mkPart (tbl_id (length T1 + 2)) table T2].
Proof.
  intros H1 H2.
  assert (E1 : table_at ((T1 ++ [LF]) ++ LF :: T2) = Some (LF :: T2)).
  { rewrite <- app_assoc. apply (table_region_first H1 (leaves_blank T2)). }
  assert (E2 : table_at (T2 ++ []) = Some []).
  { apply (table_region_first H2 leaves_end). }
  assert (U : unmatched [LF] (T2 ++ [])).
  { apply unmatched_cons; [apply table_at_not_pipe; discriminate | apply unmatched_nil]. }
  pose proof (@seg_last (length T1 + 1 + length [LF] + length T2) []
                (unmatched_nil [])) as S3.
  pose proof (@seg_match (length T1 + 1) [LF] T2 [] _ U E2 S3) as S2.
  assert (S1 : segmented 0 ([] ++ (T1 ++ [LF]) ++ LF :: T2 ++ [])
                 (prose_part 0 [] ++
                  mkPart (tbl_id (0 + length (@nil code_unit))) table (T1 ++ [LF])
                  :: prose_part (length T1 + 1) [LF] ++
                     mkPart (tbl_id (length T1 + 1 + length [LF])) table T2
                     :: prose_part (length T1 + 1 + length [LF] + length T2) [])).
  { apply seg_match.
    - apply unmatched_nil.
    - rewrite app_nil_r. exact E1.
    - replace (0 + length (@nil code_unit) + length (T1 ++ [LF]))
        with (length T1 + 1) by (rewrite length_app; simpl; lia).
      exact S2. }
  unfold parseMarkdown.
  replace (T1 ++ [LF; LF] ++ T2) with ([] ++ (T1 ++ [LF]) ++ LF :: T2 ++ [])
    by (simpl; rewrite app_nil_r, <- app_assoc; reflexivity).
  rewrite (@parse_loop_segmented 0 _ _ S1 _ (S (length ([] ++ (T1 ++ [LF]) ++ LF :: T2 ++ []))) []);
    [| reflexivity | lia | lia].
  simpl. replace (length T1 + 1 + 1) with (length T1 + 2) by lia. reflexivity.
Qed.

(** C4, amended, at two regions of two lines each. *)
Lemma two_tables_blank_line_witness :
  table_region tableA /\ table_region tableB /\
  parseMarkdown (tableA ++ [LF; LF] ++ tableB) =
    Some [mkPart (tbl_id 0) table (tableA ++ [LF]);
          mkPart (md_id 8) markdown [LF];
          mkPart (tbl_id 9) table tableB].
Proof.
  split; [exact tableA_region|]. split; [exact tableB_region|].
  exact (@two_tables_blank_line tableA tableB tableA_region tableB_region).
Defined.

(** C4 as stated fails: a prose part stands between the two table
    parts. *)
Lemma two_tables_blank_line_counterexample :
  table_region tableA /\ table_region tableB /\
  option_map (map type) (parseMarkdown (tableA ++ [LF; LF] ++ tableB)) =
    Some [table; markdown; table] /\
  option_map (map type) (parseMarkdown (tableA ++ [LF; LF] ++ tableB)) <>
    Some [table; table].
Proof.
  split; [exact tableA_region|]. split; [exact tableB_region|].
  split; vm_compute; [reflexivity | discriminate].
Qed.


(** C6. Joining the texts of the parts of [D] with a blank line and
    segmenting the result gives parts of the same kinds in the same
    order. *)
Theorem reclassification_idempotent (D : jsstring) :
  exists parts parts',
    parseMarkdown D = Some parts /\
    parseMarkdown (combinedMarkdown parts) = Some parts' /\
    map type parts' = map type parts.
Proof.
  destruct (parseMarkdown_segmented D) as (parts & E & Hs).
  destruct (rejoin Hs 0) as (parts' & Hs' & Et).
  exists parts, parts'. split; [assumption|]. split; [|assumption].
  destruct (parseMarkdown_segmented (combinedMarkdown parts)) as (l & El & Hl).
  rewrite El. f_equal.
  unfold parseMarkdown in El.
  rewrite (@parse_loop_segmented 0 _ _ Hs' (combinedMarkdown parts)
             (S (length (combinedMarkdown parts))) []) in El; [| reflexivity | lia | lia].
  inversion El. reflexivity.
Qed.




(** C8. The ids of the parts of [D] are pairwise distinct, and the id of
    each part is [part_id] of its kind and of the index it begins at in
    [D], the total length of the parts before it. *)
Theorem parseMarkdown_ids (D : jsstring) :
  exists parts, parseMarkdown D = Some parts /\
    NoDup (map id parts) /\
    forall before p after, parts = before ++ p :: after ->
      D = concat (map content before) ++ content p ++ concat (map content after) /\
      id p = part_id (type p) (length (concat (map content before))).
Proof.
  destruct (parseMarkdown_segmented D) as (parts & E & Hs).
  exists parts. split; [assumption|].
  destruct (segmented_ids Hs) as (_ & N & O). split; [assumption|].
  intros before p after Hp. split.
  - rewrite <- (segmented_concat Hs), Hp, map_app, concat_app. reflexivity.
  - apply (O before p after Hp).
Qed.

(** C9. [handleTableUpdate] with an id that no held part has leaves the
    parts as they are. *)
Theorem handleTableUpdate_stale (parts : list DocumentPart)
    (tableId updatedMarkdown : jsstring) :
  ~ In tableId (map id parts) ->
  handleTableUpdate tableId updatedMarkdown parts = parts.
Proof. apply handleTableUpdate_other. Qed.

(** C9 at a stale table id, on one prose part and on no part at all. *)
Lemma handleTableUpdate_stale_witness :
  ~ In (tbl_id 7) (map id [mkPart (md_id 0) markdown (units "Hello")]) /\
  handleTableUpdate (tbl_id 7) scenarioE [mkPart (md_id 0) markdown (units "Hello")]
  = [mkPart (md_id 0) markdown (units "Hello")] /\
  handleTableUpdate (tbl_id 7) scenarioE [] = [].
Proof.
  assert (H : ~ In (tbl_id 7) (map id [mkPart (md_id 0) markdown (units "Hello")])).
  { simpl. intros [E|[]]. discriminate. }
  split; [exact H|]. split.
  - apply (@handleTableUpdate_stale _ (tbl_id 7) scenarioE H).
  - apply (@handleTableUpdate_stale [] (tbl_id 7) scenarioE). simpl. intros [].
Defined.

(** C10. On the parts a session can hold, [handleTableUpdate] with the id
    of a part replaces the text of that part and nothing else: its id and
    kind stay, the parts before and after stay, and the joined text holds
    the new text between the texts around it. *)
Theorem handleTableUpdate_frame (parts : list DocumentPart) :
  held parts ->
  forall before p after updatedMarkdown,
    parts = before ++ p :: after ->
    handleTableUpdate (id p) updatedMarkdown parts =
      before ++ mkPart (id p) (type p) updatedMarkdown :: after /\
    combinedMarkdown (handleTableUpdate (id p) updatedMarkdown parts) =
      join [LF; LF] (map content before ++ updatedMarkdown :: map content after).
Proof.
  intros Hh before p after new ->.
  assert (E : handleTableUpdate (id p) new (before ++ p :: after) =
              before ++ mkPart (id p) (type p) new :: after).
  { apply held_NoDup in Hh. rewrite map_app in Hh. simpl in Hh.
    apply NoDup_remove_2 in Hh.
    rewrite handleTableUpdate_app. change (p :: after) with ([p] ++ after).
    rewrite handleTableUpdate_app.
    rewrite (@handleTableUpdate_other (id p) new before),
            (@handleTableUpdate_other (id p) new after).
    - simpl. destruct (list_eq_dec N.eq_dec (id p) (id p)) as [_|NE];
        [reflexivity | contradiction].
    - intros Hin. apply Hh. apply in_or_app. right. assumption.
    - intros Hin. apply Hh. apply in_or_app. left. assumption. }
  split; [exact E|].
  rewrite E. unfold combinedMarkdown. rewrite map_app. reflexivity.
Qed.

(** C10 at Scenario E: the table of Scenario A replaced. *)
Lemma handleTableUpdate_frame_witness :
  held scenarioA_parts /\
  handleTableUpdate (tbl_id 7) scenarioE scenarioA_parts =
    [mkPart (md_id 0) markdown (units "Hello" ++ [LF; LF]);
     mkPart (tbl_id 7) table scenarioE;
     mkPart (md_id 37) markdown ([LF] ++ units "Bye")] /\
  combinedMarkdown (handleTableUpdate (tbl_id 7) scenarioE scenarioA_parts) =
    units "Hello" ++ [LF; LF] ++ [LF; LF] ++ scenarioE ++ [LF; LF] ++ [LF]
    ++ units "Bye".
Proof.
  assert (Hh : held scenarioA_parts).
  { apply (@held_load scenarioA). vm_compute. reflexivity. }
  split; [exact Hh|].
  exact (@handleTableUpdate_frame scenarioA_parts Hh
           [mkPart (md_id 0) markdown (units "Hello" ++ [LF; LF])]
           (mkPart (tbl_id 7) table scenarioA_table)
           [mkPart (md_id 37) markdown ([LF] ++ units "Bye")]
           scenarioE eq_refl).
Defined.

(** * Further properties of the code *)

(** ** The shape of a segmentation *)

Section Alternation.

Lemma window_cons_cases {X} (p0 : X) l before p q after :
  p0 :: l = before ++ p :: q :: after ->
  (before = [] /\ p = p0 /\ l = q :: after) \/
  (exists before', before = p0 :: before' /\ l = before' ++ p :: q :: after).
Proof.
  destruct before as [|x before]; simpl; intros E; inversion E; subst.
  - left. auto.
  - right. eauto.
Qed.

(** In a segmentation a table part is followed by prose, and prose by a
    table part. *)
Lemma segmented_alternate o x l :
  segmented o x l ->
  forall before p q after, l = before ++ p :: q :: after -> type p <> type q.
Proof.
  induction 1 as [o x U | o pre t rest l U H Hs IH]; intros before p q after E.
  - destruct x as [|ch x]; simpl in E.
    + destruct before; discriminate.
    + destruct before as [|? [|? ?]]; discriminate.
  - pose proof (segmented_head_prose Hs (table_at_maximal _ H)) as Hp.
    assert (Ht : forall before p q after,
               mkPart (tbl_id (o + length pre)) table t :: l =
               before ++ p :: q :: after -> type p <> type q).
    { intros before0 p0 q0 after0 E0.
      apply window_cons_cases in E0 as [(-> & -> & ->)|(before' & -> & E0)].
      - simpl in *. rewrite Hp. discriminate.
      - apply (IH before' p0 q0 after0 E0). }
    destruct pre as [|ch pre]; simpl in E.
    + apply (Ht before p q after E).
    + apply window_cons_cases in E as [(-> & -> & E)|(before' & -> & E)].
      * inversion E; subst. simpl. discriminate.
      * apply (Ht before' p q after E).
Qed.

End Alternation.

(** X1. In the parts of [D] no two neighbours have the same kind: prose
    and table parts alternate. *)
Theorem parseMarkdown_alternates (D : jsstring) :
  exists parts, parseMarkdown D = Some parts /\
    forall before p q after,
      parts = before ++ p :: q :: after -> type p <> type q.
Proof.
  destruct (parseMarkdown_segmented D) as (parts & E & Hs).
  exists parts. split; [assumption|]. apply (segmented_alternate Hs).
Qed.

Section TableParts.

Lemma table_text_length w : table_text w -> 5 <= length w.
Proof.
  intros [header n1 ks n2 rows Hh Hn1 Hks Hn2 Hrows].
  destruct ks as [|k ks]; [contradiction|].
  unfold cell_row, delimiter_row, hyphen_group.
  cbn [map concat]. rewrite !length_app. cbn [length repeat].
  rewrite !length_app. cbn [length]. lia.
Qed.

Lemma segmented_table_in o x l p :
  segmented o x l -> In p l -> type p = table -> matches tableRegex (content p).
Proof.
  intros Hs Hin Ht. apply in_split in Hin as (before & after & E).
  destruct (segmented_parts Hs before p after E) as [H _]. apply (H Ht).
Qed.

End TableParts.

(** X2. Every table part of [D] begins with a pipe, is at least five
    code units long, and never holds two line feeds in a row. *)
Theorem table_parts_basics (D : jsstring) :
  exists parts, parseMarkdown D = Some parts /\
    forall p, In p parts -> type p = table ->
      (exists t, content p = PIPE :: t) /\
      5 <= length (content p) /\
      (forall a b, content p <> a ++ LF :: LF :: b).
Proof.
  destruct (parseMarkdown_segmented D) as (parts & E & Hs).
  exists parts. split; [assumption|]. intros p Hin Ht.
  pose proof (@segmented_table_in _ _ _ p Hs Hin Ht) as M. split; [|split].
  - apply matches_table_pipe. assumption.
  - apply table_text_length. apply matches_table_text. assumption.
  - intros a b. apply table_no_double_lf. assumption.
Qed.

(** X3. [tableRegex] matches at the head of [x] exactly when [x] begins
    with a text of the table pattern; what it matches is then such a text,
    and no further row begins right after it. *)
Theorem table_at_begins_table (x : jsstring) :
  ((exists y, table_at x = Some y) <-> begins_table x) /\
  (forall y, table_at x = Some y ->
     exists w, x = w ++ y /\ table_text w /\ ~ begins_row y).
Proof.
  split; [split|].
  - intros (y & H). destruct (table_at_sound _ H) as (w & -> & M).
    exists w, y. split; [reflexivity|]. apply matches_table_text. assumption.
  - intros (w & tl & -> & M). apply matches_table_text in M.
    apply (table_at_complete tl M).
  - intros y H. destruct (table_at_sound _ H) as (w & -> & M).
    exists w. split; [reflexivity|]. split.
    + apply matches_table_text. assumption.
    + intros B. apply begins_row_iff in B.
      apply (@table_at_no_row_begins _ _ H B).
Qed.

(** ** Documents without a table, the export, and updates *)

Section ProseOnly.

(** Where no word of [tableRegex] occurs, the loop finds no match. *)
Lemma no_word_prose D :
  (forall a w b, D = a ++ w ++ b -> ~ matches tableRegex w) ->
  parseMarkdown D = Some (prose_part 0 D).
Proof.
  intros Hno.
  destruct (parseMarkdown_segmented D) as (parts & E & Hs). rewrite E. f_equal.
  inversion Hs as [o x U|o pre t rest l U H Hs' Eo Ex]; subst.
  - reflexivity.
  - exfalso. destruct (table_at_sound _ H) as (w & Ew & M).
    apply app_inv_tail in Ew. subst w.
    apply (Hno pre t rest eq_refl M).
Qed.

Lemma cell_row_pipes h : 2 <= pipes (cell_row h).
Proof.
  unfold pipes, cell_row. rewrite count_occ_cons_eq by reflexivity.
  rewrite count_occ_app. simpl (count_occ N.eq_dec [PIPE] PIPE). lia.
Qed.

Lemma hyphen_group_counts k :
  1 <= pipes (hyphen_group k) /\ 1 <= hyphens (hyphen_group k).
Proof.
  unfold pipes, hyphens, hyphen_group. rewrite !count_occ_app. split.
  - simpl (count_occ N.eq_dec [PIPE] PIPE). lia.
  - cbn [repeat]. rewrite count_occ_cons_eq by reflexivity. lia.
Qed.

Lemma delimiter_row_counts k ks :
  2 <= pipes (delimiter_row (k :: ks)) /\ 1 <= hyphens (delimiter_row (k :: ks)).
Proof.
  destruct (hyphen_group_counts k) as [Hp Hh].
  unfold pipes, hyphens, delimiter_row in *. cbn [map concat]. split.
  - rewrite count_occ_cons_eq by reflexivity. rewrite count_occ_app. lia.
  - rewrite count_occ_cons_neq by discriminate. rewrite count_occ_app. lia.
Qed.

Lemma table_text_counts w : table_text w -> 4 <= pipes w /\ 1 <= hyphens w.
Proof.
  intros [header n1 ks n2 rows Hh Hn1 Hks Hn2 Hrows].
  destruct ks as [|k ks]; [contradiction|].
  pose proof (cell_row_pipes header) as Hc.
  destruct (delimiter_row_counts k ks) as [Hp Hy].
  unfold pipes, hyphens in *. rewrite !count_occ_app. lia.
Qed.

End ProseOnly.

(** X4. A document with fewer than four pipes, or with no hyphen, holds
    no table: it is one prose part with the whole input, and no part at
    all when it is empty. *)
Theorem few_pipes_or_no_hyphen_is_prose (D : jsstring) :
  pipes D < 4 \/ hyphens D = 0 ->
  parseMarkdown D =
    Some (match D with
          | [] => []
          | _ :: _ => [mkPart (md_id 0) markdown D]
          end).
Proof.
  intros Hc. change (parseMarkdown D = Some (prose_part 0 D)).
  apply no_word_prose. intros a w b -> M.
  apply matches_table_text, table_text_counts in M.
  unfold pipes, hyphens in *. rewrite !count_occ_app in Hc. lia.
Qed.

(** X4 at a text with three pipes and hyphens on two lines. *)
Lemma few_pipes_or_no_hyphen_is_prose_witness :
  (pipes threePipes < 4 \/ hyphens threePipes = 0) /\
  parseMarkdown threePipes = Some [mkPart (md_id 0) markdown threePipes].
Proof.
  assert (H : pipes threePipes < 4 \/ hyphens threePipes = 0).
  { left. vm_compute. lia. }
  split; [exact H|].
  exact (@few_pipes_or_no_hyphen_is_prose threePipes H).
Defined.

Section ExportLength.

Lemma join_length sep l :
  length (join sep l) = length (concat l) + length sep * (length l - 1).
Proof.
  induction l as [|x l IH]; [simpl; lia|].
  destruct l as [|y l].
  - simpl. rewrite app_nil_r. lia.
  - change (join sep (x :: y :: l)) with (x ++ sep ++ join sep (y :: l)).
    rewrite !length_app, IH. cbn [concat length]. rewrite !length_app.
    cbn [concat length]. lia.
Qed.

End ExportLength.

(** X5. The text joined for the export is longer than [D] by two code
    units for each part after the first; it is [D] itself exactly when [D]
    has at most one part. *)
Theorem combinedMarkdown_length (D : jsstring) :
  exists parts, parseMarkdown D = Some parts /\
    length (combinedMarkdown parts) = length D + 2 * (length parts - 1) /\
    (combinedMarkdown parts = D <-> length parts <= 1).
Proof.
  destruct (parseMarkdown_segmented D) as (parts & E & Hs).
  exists parts. split; [assumption|].
  pose proof (segmented_concat Hs) as Hc.
  assert (L : length (combinedMarkdown parts) = length D + 2 * (length parts - 1)).
  { unfold combinedMarkdown. rewrite join_length, length_map, Hc. reflexivity. }
  split; [exact L|]. split.
  - intros Eq. rewrite Eq in L. lia.
  - intros Hl. destruct parts as [|p [|q parts]]; simpl in *.
    + auto.
    + rewrite app_nil_r in Hc. assumption.
    + lia.
Qed.

(** X6. Of two updates of the same id in a row the second wins, as if
    the first had not happened. *)
Theorem handleTableUpdate_last_wins (parts : list DocumentPart)
    (tableId first second : jsstring) :
  handleTableUpdate tableId second (handleTableUpdate tableId first parts) =
  handleTableUpdate tableId second parts.
Proof.
  unfold handleTableUpdate. rewrite map_map. apply map_ext. intros p.
  destruct (list_eq_dec N.eq_dec (id p) tableId) as [E|NE]; simpl.
  - destruct (list_eq_dec N.eq_dec (id p) tableId); [reflexivity|contradiction].
  - destruct (list_eq_dec N.eq_dec (id p) tableId); [contradiction|reflexivity].
Qed.

(** X7. Updates of two different ids commute. *)
Theorem handleTableUpdate_commute (parts : list DocumentPart)
    (id1 id2 text1 text2 : jsstring) :
  id1 <> id2 ->
  handleTableUpdate id1 text1 (handleTableUpdate id2 text2 parts) =
  handleTableUpdate id2 text2 (handleTableUpdate id1 text1 parts).
Proof.
  intros Hne. unfold handleTableUpdate. rewrite !map_map. apply map_ext. intros p.
  destruct (list_eq_dec N.eq_dec (id p) id2) as [E2|N2];
    destruct (list_eq_dec N.eq_dec (id p) id1) as [E1|N1]; simpl.
  - congruence.
  - destruct (list_eq_dec N.eq_dec (id p) id1); [contradiction|].
    destruct (list_eq_dec N.eq_dec (id p) id2); [reflexivity|contradiction].
  - destruct (list_eq_dec N.eq_dec (id p) id1); [|contradiction].
    destruct (list_eq_dec N.eq_dec (id p) id2); [contradiction|reflexivity].
  - destruct (list_eq_dec N.eq_dec (id p) id1); [contradiction|].
    destruct (list_eq_dec N.eq_dec (id p) id2); [contradiction|reflexivity].
Qed.

(** X7 at the table and the first prose part of Scenario A. *)
Lemma handleTableUpdate_commute_witness :
  tbl_id 7 <> md_id 0 /\
  handleTableUpdate (tbl_id 7) scenarioE
    (handleTableUpdate (md_id 0) (units "Hi") scenarioA_parts) =
  handleTableUpdate (md_id 0) (units "Hi")
    (handleTableUpdate (tbl_id 7) scenarioE scenarioA_parts).
Proof.
  assert (H : tbl_id 7 <> md_id 0) by discriminate.
  split; [exact H|].
  exact (@handleTableUpdate_commute scenarioA_parts (tbl_id 7) (md_id 0)
           scenarioE (units "Hi") H).
Defined.

Section Session.

Lemma handleTableUpdate_types i new parts :
  map type (handleTableUpdate i new parts) = map type parts.
Proof.
  unfold handleTableUpdate. rewrite map_map. apply map_ext.
  intros p. destruct (list_eq_dec N.eq_dec (id p) i); reflexivity.
Qed.

End Session.

(** X8. What a session holds has the ids and the kinds, in order, of
    the parts of a loaded document: updates change texts only, never an
    id, a kind, or the number or order of the parts; and the ids are
    pairwise distinct. *)
Theorem held_from_load (parts : list DocumentPart) :
  held parts ->
  (exists markdownContent loaded,
     load markdownContent = Some loaded /\
     map id parts = map id loaded /\
     map type parts = map type loaded) /\
  NoDup (map id parts).
Proof.
  intros Hh. split; [|apply held_NoDup; assumption].
  induction Hh as [|md parts E|parts i new Hh (md & loaded & E & Ei & Et)].
  - exists [], []. auto.
  - exists md, parts. auto.
  - exists md, loaded. split; [assumption|].
    rewrite handleTableUpdate_ids, handleTableUpdate_types. auto.
Qed.

(** X8 at Scenario A after an update of its table. *)
Lemma held_from_load_witness :
  held (handleTableUpdate (tbl_id 7) scenarioE scenarioA_parts) /\
  (exists markdownContent loaded,
     load markdownContent = Some loaded /\
     map id (handleTableUpdate (tbl_id 7) scenarioE scenarioA_parts) = map id loaded /\
     map type (handleTableUpdate (tbl_id 7) scenarioE scenarioA_parts) = map type loaded) /\
  NoDup (map id (handleTableUpdate (tbl_id 7) scenarioE scenarioA_parts)).
Proof.
  assert (H : held (handleTableUpdate (tbl_id 7) scenarioE scenarioA_parts)).
  { apply held_update. apply (@held_load scenarioA). vm_compute. reflexivity. }
  split; [exact H|].
  exact (@held_from_load _ H).
Defined.

Section Sandwich.

Lemma no_pipe_unmatched pre ctx : ~ In PIPE pre -> unmatched pre ctx.
Proof.
  induction pre as [|ch pre IH]; intros Hn.
  - apply unmatched_nil.
  - apply unmatched_cons.
    + apply table_at_not_pipe. intros ->. apply Hn. left. reflexivity.
    + apply IH. intros Hin. apply Hn. right. assumption.
Qed.

End Sandwich.

(** X9. Prose without a pipe, then a table region written line by line,
    a blank line, and prose without a pipe: the parts are the first prose
    (if any), the region with the line feed that ends its last row, and
    the last prose behind the second line feed of the blank line. *)
Theorem prose_table_prose (pre T post : jsstring) :
  ~ In PIPE pre -> table_region T -> ~ In PIPE post ->
  parseMarkdown (pre ++ T ++ [LF; LF] ++ post) =
    Some (match pre with
          | [] => []
          | _ :: _ => [mkPart (md_id 0) markdown pre]
          end ++
          [mkPart (tbl_id (length pre)) table (T ++ [LF]);
           mkPart (md_id (length pre + length T + 1)) markdown (LF :: post)]).
Proof.
  intros Hpre HT Hpost.
  assert (E1 : table_at ((T ++ [LF]) ++ LF :: post) = Some (LF :: post)).
  { rewrite <- app_assoc. apply (table_region_first HT (leaves_blank post)). }
  assert (U2 : unmatched (LF :: post) []).
  { apply no_pipe_unmatched. intros [E|Hin]; [discriminate | contradiction]. }
  pose proof (@seg_last (0 + length pre + length (T ++ [LF])) (LF :: post) U2) as S2.
  pose proof (@seg_match 0 pre (T ++ [LF]) (LF :: post) _
                (no_pipe_unmatched _ Hpre) E1 S2) as S1.
  unfold parseMarkdown.
  replace (pre ++ T ++ [LF; LF] ++ post) with (pre ++ (T ++ [LF]) ++ LF :: post)
    by (rewrite <- app_assoc; reflexivity).
  rewrite (@parse_loop_segmented 0 _ _ S1 _
             (S (length (pre ++ (T ++ [LF]) ++ LF :: post))) []);
    [| reflexivity | lia | lia].
  simpl. f_equal. f_equal. rewrite length_app. simpl.
  replace (length pre + (length T + 1)) with (length pre + length T + 1) by lia.
  reflexivity.
Qed.

(** X9 at Scenario A. *)
Lemma prose_table_prose_witness :
  ~ In PIPE (units "Hello" ++ [LF; LF]) /\
  table_region (units "| a | b |" ++ [LF] ++ units "|---|---|" ++ [LF]
                ++ units "| 1 | 2 |") /\
  ~ In PIPE (units "Bye") /\
  parseMarkdown scenarioA = Some scenarioA_parts.
Proof.
  assert (H1 : ~ In PIPE (units "Hello" ++ [LF; LF])).
  { simpl. intros H. repeat (destruct H as [H|H]; [discriminate|]). exact H. }
  assert (H2 : table_region (units "| a | b |" ++ [LF] ++ units "|---|---|" ++ [LF]
                             ++ units "| 1 | 2 |")).
  { apply (@table_region_lines (units " a | b ") [2; 2] [units " 1 | 2 "]);
      [reflexivity | discriminate | reflexivity]. }
  assert (H3 : ~ In PIPE (units "Bye")).
  { simpl. intros H. repeat (destruct H as [H|H]; [discriminate|]). exact H. }
  split; [exact H1|]. split; [exact H2|]. split; [exact H3|].
  exact (@prose_table_prose _ _ _ H1 H2 H3).
Defined.

(** ** One table, with any line break *)

Section AnyLineBreak.

Lemma m_dot_terminator {A} ch y (c : cont A) :
  line_terminator ch = true -> m Dot (ch :: y) c = None.
Proof. intros H. simpl. rewrite H. reflexivity. Qed.

Lemma terminator_neq ch ch0 :
  line_terminator ch = true -> line_terminator ch0 = false -> ch0 <> ch.
Proof. intros H H0 E. subst. congruence. Qed.

Lemma star_dot_stops tl (c : cont jsstring) :
  stops tl -> m (Star Dot) tl (fun y => m (Chr PIPE) y c) = None.
Proof.
  intros H. rewrite m_star_unfold. destruct tl as [|ch tl]; [reflexivity|].
  simpl in H. rewrite m_dot_terminator by exact H.
  apply m_chr_neq. apply (@terminator_neq ch _ H). reflexivity.
Qed.

Lemma star_dot_pipe_stops h tl :
  plain h = true -> stops tl ->
  m (Star Dot) (h ++ PIPE :: tl) (fun y => m (Chr PIPE) y (fun z => Some z)) = Some tl.
Proof.
  intros Hh Htl. induction h as [|ch h IH]; simpl app; rewrite m_star_unfold.
  - rewrite m_dot_plain by reflexivity. rewrite length_tail_neq.
    rewrite star_dot_stops by exact Htl. apply m_chr_eq.
  - simpl in Hh. apply andb_true_iff in Hh as [Hc Hh].
    rewrite m_dot_plain by (apply negb_true_iff; assumption).
    rewrite length_tail_neq, (IH Hh). reflexivity.
Qed.

Lemma row_first_stops h tl :
  plain h = true -> stops tl ->
  m row (cell_row h ++ tl) (fun y => Some y) = Some tl.
Proof.
  intros Hh Htl. unfold row, cell_row. rewrite m_seq. simpl app.
  rewrite m_chr_eq, m_seq, <- app_assoc. apply star_dot_pipe_stops; assumption.
Qed.

Lemma length_tail2_neq {X} (y : list X) : (length y =? S (S (length y))) = false.
Proof. apply Nat.eqb_neq. lia. Qed.

Lemma opt_newline_break {A} n y (c : cont A) z :
  line_break n -> pipe_or_end y -> c y = Some z ->
  m (Opt newline) (n ++ y) c = Some z.
Proof.
  intros [-> | [-> | -> ]] Hy Hc.
  - apply opt_newline_lf. assumption.
  - unfold newline. simpl.
    rewrite (proj2 (Nat.eqb_neq _ _) (Nat.neq_succ_diag_r (length y))).
    rewrite length_tail2_neq, Hc. reflexivity.
  - unfold newline. destruct y as [|ch y]; simpl.
    + rewrite Hc. reflexivity.
    + simpl in Hy. subst ch. simpl.
      rewrite (proj2 (Nat.eqb_neq _ _) (Nat.neq_succ_diag_r (length y))).
      rewrite Hc. reflexivity.
Qed.

Lemma opt_newline_tail {A} tail (c : cont A) z :
  opt_newline tail -> c [] = Some z -> m (Opt newline) tail c = Some z.
Proof.
  intros [->|H] Hc.
  - rewrite opt_newline_nil. assumption.
  - rewrite <- (app_nil_r tail). apply opt_newline_break; [exact H | exact I | assumption].
Qed.

Lemma line_break_stops n y : line_break n -> stops (n ++ y).
Proof. intros [-> | [-> | -> ]]; reflexivity. Qed.

Lemma opt_newline_stops tail : opt_newline tail -> stops tail.
Proof. intros [-> | [-> | [-> | -> ]]]; reflexivity. Qed.

Lemma hyphen_group_stops {A} tl (c : cont A) :
  stops tl -> m (Seq (Plus (Chr HYPHEN)) (Chr PIPE)) tl c = None.
Proof.
  intros H. unfold Plus. rewrite !m_seq. destruct tl as [|ch tl]; [reflexivity|].
  apply m_chr_neq. apply (@terminator_neq ch _ H). reflexivity.
Qed.

Lemma star_groups_stops {A} ks tl (c : cont A) z :
  stops tl -> c tl = Some z ->
  m (Star (Seq (Plus (Chr HYPHEN)) (Chr PIPE)))
    (concat (map hyphen_group ks) ++ tl) c = Some z.
Proof.
  intros Htl Hc.
  induction ks as [|k ks IH]; cbn [map concat app]; rewrite m_star_unfold.
  - rewrite hyphen_group_stops by exact Htl. assumption.
  - rewrite <- app_assoc, hyphen_group_pipe, hyphen_group_length, IH. reflexivity.
Qed.

Lemma delimiter_first_stops {A} ks tl (c : cont A) z :
  ks <> [] -> stops tl -> c tl = Some z ->
  m delimiter (delimiter_row ks ++ tl) c = Some z.
Proof.
  intros Hks Htl Hc. destruct ks as [|k ks]; [contradiction|].
  unfold delimiter, delimiter_row. cbn [map concat app].
  rewrite m_seq, m_chr_eq. unfold Plus at 1.
  rewrite m_seq, <- app_assoc, hyphen_group_pipe.
  apply star_groups_stops; assumption.
Qed.

Lemma rowline_stops {A} tl (c : cont A) :
  stops tl -> m (Seq row (Opt newline)) tl c = None.
Proof.
  intros H. unfold row. rewrite !m_seq. destruct tl as [|ch tl]; [reflexivity|].
  apply m_chr_neq. apply (@terminator_neq ch _ H). reflexivity.
Qed.

Lemma rows_text_stops (rows : list (jsstring * jsstring)) tail :
  Forall (fun nr => line_break (fst nr) /\ plain (snd nr) = true) rows ->
  opt_newline tail ->
  stops (concat (map (fun nr => fst nr ++ cell_row (snd nr)) rows) ++ tail).
Proof.
  intros Hrows Htail. destruct Hrows as [|[n h] rows [Hn _] _]; cbn [map concat app].
  - apply opt_newline_stops. assumption.
  - cbn [fst snd]. rewrite <- !app_assoc. apply line_break_stops. assumption.
Qed.

(** The rows of a table document are all taken, whatever the line
    breaks, up to the end of the input. *)
Lemma rows_first_any (rows : list (jsstring * jsstring)) tail :
  Forall (fun nr => line_break (fst nr) /\ plain (snd nr) = true) rows ->
  opt_newline tail ->
  m (Opt newline)
    (concat (map (fun nr => fst nr ++ cell_row (snd nr)) rows) ++ tail)
    (fun y => m (Star (Seq row (Opt newline))) y (fun z => Some z)) = Some [].
Proof.
  intros Hrows Htail.
  induction Hrows as [|[n h] rows [Hn Hh] Hrows IH]; cbn [map concat app].
  - apply opt_newline_tail; [assumption|]. rewrite m_star_unfold. reflexivity.
  - cbn [fst snd] in *. rewrite <- !app_assoc.
    set (rest := concat (map (fun nr => fst nr ++ cell_row (snd nr)) rows) ++ tail)
      in *.
    apply opt_newline_break; [assumption | reflexivity |].
    rewrite m_star_unfold, m_seq.
    assert (Hr : m row (cell_row h ++ rest) (fun y => Some y) = Some rest).
    { apply row_first_stops; [assumption|]. apply rows_text_stops; assumption. }
    rewrite (m_first row (cell_row h ++ rest) _ Hr (b := @nil code_unit));
      [reflexivity|].
    rewrite <- IH. apply m_ext. intros y Hy.
    destruct (Nat.eqb_spec (length y) (length (cell_row h ++ rest))) as [E|_];
      [|reflexivity].
    unfold cell_row in E. rewrite !length_app in E. simpl in E. lia.
Qed.

Lemma table_document_first T : table_document T -> table_at T = Some [].
Proof.
  intros [header n1 ks rows tail Hh Hn1 Hks Hrows Htail]. rewrite table_at_eq.
  set (rowsText := concat (map (fun nr => fst nr ++ cell_row (snd nr)) rows) ++ tail).
  assert (Hr : m row (cell_row header ++ n1 ++ delimiter_row ks ++ rowsText)
                 (fun y => Some y) = Some (n1 ++ delimiter_row ks ++ rowsText)).
  { apply row_first_stops; [assumption|]. apply line_break_stops. assumption. }
  apply (m_first row _ _ Hr).
  apply opt_newline_break; [assumption | reflexivity |].
  apply delimiter_first_stops;
    [assumption | apply rows_text_stops; assumption |].
  apply rows_first_any; assumption.
Qed.

End AnyLineBreak.

(** X10. A document that is one table written line by line, with a line
    feed, a carriage return, or both after each line but the last, and at
    most one newline at its end, is one table part that holds the whole
    input. *)
Theorem table_document_one_part (T : jsstring) :
  table_document T ->
  parseMarkdown T = Some [mkPart (tbl_id 0) table T].
Proof.
  intros HT.
  assert (E : table_at (T ++ []) = Some []).
  { rewrite app_nil_r. apply table_document_first. assumption. }
  pose proof (@seg_last (0 + length (@nil code_unit) + length T) []
                (unmatched_nil [])) as S2.
  pose proof (@seg_match 0 [] T [] _ (unmatched_nil _) E S2) as S1.
  unfold parseMarkdown.
  replace T with ([] ++ T ++ []) at 1 2 by (simpl; apply app_nil_r).
  rewrite (@parse_loop_segmented 0 _ _ S1 _ (S (length ([] ++ T ++ []))) []);
    [| reflexivity | lia | lia].
  reflexivity.
Qed.

(** X10 at a table whose lines end in a carriage return and a line
    feed, in a carriage return, and in a line feed. *)
Lemma table_document_one_part_witness :
  table_document tableCRLF /\
  parseMarkdown tableCRLF = Some [mkPart (tbl_id 0) table tableCRLF].
Proof.
  assert (H : table_document tableCRLF).
  { apply (@table_document_lines (units " a | b ") [CR; LF] [2; 2]
             [([CR; LF], units " 1 | 2 "); ([CR], units " 3 | 4 ")] [LF]).
    - reflexivity.
    - right. left. reflexivity.
    - discriminate.
    - constructor; [split; [right; left; reflexivity | reflexivity]|].
      constructor; [split; [right; right; reflexivity | reflexivity]|].
      constructor.
    - right. left. reflexivity. }
  split; [exact H|].
  exact (@table_document_one_part tableCRLF H).
Defined.

(** ** The export libraries *)

Section PollingFacts.

Lemma fold_done events :
  fold_left step events (mkPolling true false) = mkPolling true false.
Proof.
  induction events as [|[w|] events IH]; simpl; [reflexivity | exact IH | exact IH].
Qed.

Lemma fold_stopped events :
  fold_left step events (mkPolling false false) = mkPolling false false.
Proof.
  induction events as [|[w|] events IH]; simpl; [reflexivity | exact IH | exact IH].
Qed.

Lemma fold_polling events :
  fold_left step events (mkPolling false true) =
  mkPolling (existsb present (seen events))
            (negb (existsb present (seen events)) && negb (unmounted events)).
Proof.
  induction events as [|[w|] events IH]; simpl.
  - reflexivity.
  - unfold checkLibs, present. destruct (htmlToDocx w && saveAs w); simpl.
    + apply fold_done.
    + exact IH.
  - apply fold_stopped.
Qed.

End PollingFacts.

(** X11. After the mount and any ticks and unmounts, [libsReady] is true
    exactly when a check saw both libraries, at the mount or at a tick
    before the first unmount; the interval runs exactly when no check saw
    them and the component has not unmounted. *)
Theorem poll_ready_iff_seen (w : Window) (events : list event) :
  libsReady (poll w events) = existsb present (w :: seen events) /\
  intervalRunning (poll w events) =
    negb (existsb present (w :: seen events)) && negb (unmounted events).
Proof.
  unfold poll, mountEffect, checkLibs. simpl. unfold present at 1 3.
  destruct (htmlToDocx w && saveAs w); simpl.
  - rewrite fold_done. split; reflexivity.
  - rewrite fold_polling. split; reflexivity.
Qed.

(** ** The export keeps the parts *)

Section Kept.

Lemma kept_refl_view p p' :
  type p' = type p -> content p' = content p -> kept p p'.
Proof.
  intros Ht Hc. split; [assumption|]. exists [], []. rewrite app_nil_r.
  split; [assumption|]. split; [constructor|]. split; [constructor|].
  intros _. split; [reflexivity | simpl; lia].
Qed.

Lemma kept_same_view p p' p'' :
  kept p p' -> type p'' = type p' -> content p'' = content p' -> kept p p''.
Proof.
  intros (Ht & a & b & Hc & Ha & Hb & Htab) Ht' Hc'.
  split; [congruence|]. exists a, b. rewrite Hc'. auto.
Qed.

Lemma Forall2_kept_same_views l l' l'' :
  Forall2 kept l l' -> map type l'' = map type l' ->
  map content l'' = map content l' -> Forall2 kept l l''.
Proof.
  intros H. revert l''. induction H as [|p p' l l' Hk _ IH]; intros l'' Ht Hc.
  - destruct l''; [constructor | discriminate].
  - destruct l'' as [|p'' l'']; [discriminate|]. simpl in Ht, Hc.
    inversion Ht. inversion Hc. constructor.
    + apply (@kept_same_view _ _ _ Hk); assumption.
    + apply IH; assumption.
Qed.

Lemma Forall2_kept_refl_views l l' :
  map type l' = map type l -> map content l' = map content l ->
  Forall2 kept l l'.
Proof.
  revert l'. induction l as [|p l IH]; intros [|p' l'] Ht Hc; try discriminate.
  - constructor.
  - simpl in Ht, Hc. inversion Ht. inversion Hc. constructor.
    + apply kept_refl_view; assumption.
    + apply IH; assumption.
Qed.

(** The same text scanned from another index: the same kinds and
    texts. *)
Lemma segmented_shift_views o x l :
  segmented o x l ->
  forall o', exists l', segmented o' x l' /\
    map type l' = map type l /\ map content l' = map content l.
Proof.
  induction 1 as [o x U | o pre t rest l U H Hs IH]; intros o'.
  - exists (prose_part o' x). split; [apply seg_last; assumption|].
    destruct x; split; reflexivity.
  - destruct (IH (o' + length pre + length t)) as (l' & Hl' & Et & Ec).
    exists (prose_part o' pre ++ mkPart (tbl_id (o' + length pre)) table t :: l').
    split; [apply seg_match; assumption|].
    rewrite !map_app. simpl. rewrite Et, Ec. destruct pre; split; reflexivity.
Qed.

(** One more code unit that is not a pipe in front of a text whose first
    part is prose goes to the head of that part; the other parts stay. *)
Lemma segmented_prepend_views o x p l ch :
  segmented o x (p :: l) -> ch <> PIPE -> type p = markdown ->
  forall o', exists p' l',
    segmented o' (ch :: x) (p' :: l') /\
    type p' = markdown /\ content p' = ch :: content p /\
    map type l' = map type l /\ map content l' = map content l.
Proof.
  intros Hs Hch Hp o'.
  inversion Hs as [o0 x0 U E0 Ex El | o0 pre t rest l0 U H Hs' E0 Ex El]; subst.
  - destruct x as [|e x]; [discriminate|]. simpl in El. inversion El; subst.
    exists (mkPart (md_id o') markdown (ch :: e :: x)), [].
    split; [|repeat split].
    apply (@seg_last o' (ch :: e :: x)). apply unmatched_cons; [|assumption].
    apply table_at_not_pipe. assumption.
  - destruct pre as [|e pre]; simpl in El; inversion El; subst.
    + simpl in Hp. discriminate.
    + destruct (@segmented_shift_views _ _ _ Hs' (o' + length (ch :: e :: pre) + length t))
        as (l' & Hl' & Et & Ec).
      exists (mkPart (md_id o') markdown (ch :: e :: pre)),
             (mkPart (tbl_id (o' + length (ch :: e :: pre))) table t :: l').
      split; [|simpl; rewrite Et, Ec; repeat split].
      change (ch :: (e :: pre) ++ t ++ rest) with ((ch :: e :: pre) ++ t ++ rest).
      apply (@seg_match o' (ch :: e :: pre) t rest l'); [|assumption|assumption].
      apply unmatched_cons; [|assumption].
      apply table_at_not_pipe. assumption.
Qed.

Lemma kept_prepend p p' p'' :
  kept p p' -> type p = markdown -> type p'' = markdown ->
  content p'' = LF :: content p' -> kept p p''.
Proof.
  intros (Ht & a & b & Hc & Ha & Hb & Htab) Hp Ht'' Hc''.
  split; [congruence|]. exists (LF :: a), b. rewrite Hc'', Hc.
  split; [reflexivity|]. split; [constructor; [reflexivity | assumption]|].
  split; [assumption|]. intros E. congruence.
Qed.

(** A line feed in front of the joined texts of parts that begin with
    prose keeps them. *)
Lemma rejoin_prepend l ch x :
  ch = LF ->
  (forall o', exists l', segmented o' x l' /\ Forall2 kept l l') ->
  match l with [] => False | p :: _ => type p = markdown end ->
  forall o', exists l', segmented o' (ch :: x) l' /\ Forall2 kept l l'.
Proof.
  intros -> IH Hl o'. destruct l as [|p l]; [contradiction|].
  destruct (IH 0) as (l0 & Hs0 & Hk0).
  inversion Hk0 as [|? p0 ? l0' Hk Hks]; subst.
  assert (Hp0 : type p0 = markdown) by (destruct Hk as [Ht _]; congruence).
  destruct (@segmented_prepend_views _ _ _ _ _ Hs0 LF_not_PIPE Hp0 o')
    as (p' & l' & Hs' & Ht' & Hc' & Ets & Ecs).
  exists (p' :: l'). split; [assumption|]. constructor.
  - apply (@kept_prepend _ _ _ Hk Hl Ht' Hc').
  - apply (@Forall2_kept_same_views _ _ _ Hks Ets Ecs).
Qed.

Lemma rejoin_table_kept t rest l o :
  table_at (t ++ rest) = Some rest ->
  segmented o rest l ->
  (forall o', exists l', segmented o' (combinedMarkdown l) l' /\ Forall2 kept l l') ->
  exists t2 rest2,
    join [LF; LF] (t :: map content l) = t2 ++ rest2 /\
    table_at (t2 ++ rest2) = Some rest2 /\
    (t2 = t \/ t2 = t ++ [LF]) /\
    forall o', exists l', segmented o' rest2 l' /\ Forall2 kept l l'.
Proof.
  intros H Hs IH. destruct l as [|p l].
  - apply segmented_nil_inv in Hs. subst rest.
    exists t, []. simpl. split; [symmetry; apply app_nil_r|].
    split; [assumption|]. split; [left; reflexivity|].
    intros o'. exists (prose_part o' []). split; [|constructor].
    apply seg_last, unmatched_nil.
  - pose proof (segmented_head_prose Hs (table_at_maximal _ H)) as Hp.
    change (join [LF; LF] (t :: map content (p :: l)))
      with (t ++ LF :: LF :: combinedMarkdown (p :: l)).
    pose proof (@rejoin_prepend (p :: l) LF _ eq_refl IH Hp) as Hpre.
    destruct (@table_at_blank_some t rest (combinedMarkdown (p :: l)) H) as [E|E].
    + exists t, (LF :: LF :: combinedMarkdown (p :: l)).
      split; [reflexivity|]. split; [assumption|]. split; [left; reflexivity|].
      apply (@rejoin_prepend (p :: l) LF _ eq_refl Hpre Hp).
    + exists (t ++ [LF]), (LF :: combinedMarkdown (p :: l)).
      rewrite <- !app_assoc. simpl. split; [reflexivity|].
      split; [assumption|]. split; [right; reflexivity|].
      apply Hpre.
Qed.

Lemma kept_table t t2 o o' :
  t2 = t \/ t2 = t ++ [LF] ->
  kept (mkPart (tbl_id o) table t) (mkPart (tbl_id o') table t2).
Proof.
  intros Ht2. split; [reflexivity|]. simpl. exists [].
  destruct Ht2 as [-> | ->].
  - exists []. rewrite app_nil_r. split; [reflexivity|].
    split; [constructor|]. split; [constructor|].
    intros _. split; [reflexivity | simpl; lia].
  - exists [LF]. split; [reflexivity|].
    split; [constructor|]. split; [constructor; [reflexivity | constructor]|].
    intros _. split; [reflexivity | simpl; lia].
Qed.

Lemma rejoin_kept o x l :
  segmented o x l ->
  forall o', exists l', segmented o' (combinedMarkdown l) l' /\ Forall2 kept l l'.
Proof.
  induction 1 as [o x U | o pre t rest l U H Hs IH]; intros o'.
  - destruct x as [|ch x].
    + exists []. split; [apply (@seg_last o' [] (unmatched_nil [])) | constructor].
    + exists (prose_part o' (ch :: x)). split; [apply seg_last; assumption|].
      constructor; [|constructor]. apply kept_refl_view; reflexivity.
  - destruct (@rejoin_table_kept t _ _ _ H Hs IH) as (t2 & rest2 & Ej & H2 & Ht2 & Hl2).
    destruct pre as [|ch pre].
    + destruct (Hl2 (o' + length (@nil code_unit) + length t2)) as (l2 & Hs2 & Hk2).
      exists (prose_part o' [] ++
              mkPart (tbl_id (o' + length (@nil code_unit))) table t2 :: l2).
      split.
      * change (combinedMarkdown
                  (prose_part o [] ++
                   mkPart (tbl_id (o + length (@nil code_unit))) table t :: l))
          with (join [LF; LF] (t :: map content l)).
        rewrite Ej.
        exact (@seg_match o' [] t2 rest2 l2 (unmatched_nil (t2 ++ rest2)) H2 Hs2).
      * simpl. constructor; [apply kept_table; assumption | assumption].
    + destruct (Hl2 (o' + length ((ch :: pre) ++ [LF; LF]) + length t2))
        as (l2 & Hs2 & Hk2).
      exists (prose_part o' ((ch :: pre) ++ [LF; LF]) ++
              mkPart (tbl_id (o' + length ((ch :: pre) ++ [LF; LF]))) table t2 :: l2).
      split.
      * change (combinedMarkdown
                  (prose_part o (ch :: pre) ++
                   mkPart (tbl_id (o + length (ch :: pre))) table t :: l))
          with ((ch :: pre) ++ [LF; LF] ++ join [LF; LF] (t :: map content l)).
        rewrite Ej, (app_assoc (ch :: pre) [LF; LF] (t2 ++ rest2)).
        exact (@seg_match o' ((ch :: pre) ++ [LF; LF]) t2 rest2 l2
                 (unmatched_blank (t2 ++ rest2) U) H2 Hs2).
      * simpl. constructor; [|constructor; [apply kept_table; assumption | assumption]].
        split; [reflexivity|]. exists [], [LF; LF]. simpl.
        split; [reflexivity|]. split; [constructor|].
        split; [constructor; [reflexivity | constructor; [reflexivity | constructor]]|].
        intros E. discriminate E.
Qed.

End Kept.

(** X12. Joining the parts of [D] for the export and segmenting the
    result gives as many parts, of the same kinds in the same order, and
    each text is kept but for line feeds around it: none in front of a
    table text, and at most one behind it. *)
Theorem export_keeps_parts (D : jsstring) :
  exists parts parts',
    parseMarkdown D = Some parts /\
    parseMarkdown (combinedMarkdown parts) = Some parts' /\
    Forall2 kept parts parts'.
Proof.
  destruct (parseMarkdown_segmented D) as (parts & E & Hs).
  destruct (@rejoin_kept _ _ _ Hs 0) as (parts' & Hs' & Hk).
  exists parts, parts'. split; [assumption|]. split; [|assumption].
  unfold parseMarkdown.
  apply (@parse_loop_segmented 0 _ _ Hs' (combinedMarkdown parts)
           (S (length (combinedMarkdown parts))) []); [reflexivity | lia | lia].
Qed.
